(** * A feed-forward network with back propagation (network.js, example.js)

    Shallow embedding of [Network], [Network.node] and the four methods
    [feedInputs], [outputs], [totalError] and [trainingStep].

    - JavaScript values that flow through the network (numbers and
      [undefined]) are an abstract type [value] with the operators the
      source applies to them: binary [+] and [*], unary [-], and the
      literals [0] and [1].  No algebraic law is assumed of them, so every
      equation proved below is the very expression the source evaluates,
      and holds of binary64 arithmetic as of any other.
    - Node objects are records; the methods mutate them in place, which is
      modelled by threading the [Network] object through a state monad.
      Dereferencing [undefined] raises [TypeError]; whatever was mutated
      before the exception stays mutated.
    - Nodes are modelled by value: the node objects of a definition are
      taken to be pairwise distinct, as [Network.node] creates them, and
      the injected functions are taken to be pure.
    - Two instances of the operators follow the generic model: binary64
      floats, on which the methods run ([Js]), and real numbers with a
      rounding function, for the numbers of the worked example.
    - The statements of example.js after its definitions are a
      computation on the network object and the lines printed so far.
    - The forward pass of the first example, which precedes network.js
      in the source, is embedded on its own ([Functional]). *)

From stdpp Require Import base list.
From Stdlib Require Import ZArith Floats Reals Lra Lia.

(** ** JavaScript values and operators *)

Class JsOps (value : Type) := {
  undefined : value;
  zero : value;
  one : value;
  add : value → value → value;
  mul : value → value → value;
  neg : value → value
}.

(** ** Completions and the state monad of a method call *)

Inductive exn := TypeError.

Inductive completion (A : Type) :=
| Normal (a : A)
| Throw (e : exn).
Arguments Normal {A} a.
Arguments Throw {A} e.

Definition M (St A : Type) : Type := St → St * completion A.

Global Instance M_ret {St} : MRet (M St) := λ A a s, (s, Normal a).

Global Instance M_bind {St} : MBind (M St) := λ A B k m s,
  match m s with
  | (s', Normal a) => k a s'
  | (s', Throw e) => (s', Throw e)
  end.

Global Instance M_throw {St} : MThrow exn (M St) := λ A e s, (s, Throw e).

Definition get {St} : M St St := λ s, (s, Normal s).

(** A completion as a computation that leaves the state alone. *)
Definition lift {St A} (c : completion A) : M St A := λ s, (s, c).

(** [o] is a JavaScript value that is an object or [undefined]; using it
    as an object throws when it is [undefined]. *)
Definition deref {St A} (o : option A) : M St A :=
  match o with
  | Some a => mret a
  | None => mthrow TypeError
  end.

(** [a[i]] for an integer [i]: [undefined] out of range, also below 0. *)
Definition idx {A} (a : list A) (i : Z) : option A :=
  if (i <? 0)%Z then None else a !! Z.to_nat i.

(** [for (let i = lo; i < lo + n; i++) body(i)] *)
Fixpoint for_up {St} (n lo : nat) (body : nat → M St unit) : M St unit :=
  match n with
  | 0 => mret tt
  | S n' => body lo ;; for_up n' (S lo) body
  end.

(** [for (let i = hi; i > 0; i--) body(i)] *)
Fixpoint for_down {St} (hi : nat) (body : nat → M St unit) : M St unit :=
  match hi with
  | 0 => mret tt
  | S k => body (S k) ;; for_down k body
  end.

(** [a.forEach((x, i) => f(x, i))] where [f] mutates the object [x]; the
    elements are visited from index [i] on. *)
Fixpoint forEach_from {A} (f : nat → M A unit) (i : nat) : M (list A) unit :=
  fun a =>
    match a with
    | [] => ([], Normal tt)
    | x :: t =>
        match f i x with
        | (x', Normal _) =>
            let '(t', r) := forEach_from f (S i) t in (x' :: t', r)
        | (x', Throw e) => (x' :: t, Throw e)
        end
    end.

Definition forEach {A} (f : nat → M A unit) : M (list A) unit :=
  forEach_from f 0.

(** [a.reduce((acc, x, i) => f(acc, x, i), init)], elements from index [i]
    on; the callback may throw. *)
Fixpoint reduce_from {A B} (f : B → A → nat → completion B) (i : nat)
    (init : B) (a : list A) : completion B :=
  match a with
  | [] => Normal init
  | x :: t =>
      match f init x i with
      | Normal acc => reduce_from f (S i) acc t
      | Throw e => Throw e
      end
  end.

Definition reduce {A B} (f : B → A → nat → completion B) (init : B)
    (a : list A) : completion B :=
  reduce_from f 0 init a.

(** [a.map((x, i) => f(x, i))]; the callback may throw, and then no array
    is produced. *)
Fixpoint map_from {A B} (f : A → nat → completion B) (i : nat)
    (a : list A) : completion (list B) :=
  match a with
  | [] => Normal []
  | x :: t =>
      match f x i with
      | Normal y =>
          match map_from f (S i) t with
          | Normal t' => Normal (y :: t')
          | Throw e => Throw e
          end
      | Throw e => Throw e
      end
  end.

Definition map_js {A B} (f : A → nat → completion B) (a : list A) :
    completion (list B) :=
  map_from f 0 a.

(** ** Nodes and the network definition *)

Section Network.
Context {value : Type} {ops : JsOps value}.

(** [node.cached] *)
Record cached_t := Cached {
  input : value;
  output : value;
  weightUpdates : list value;
  biasUpdate : value;
  errorWrtIn : value
}.

Record node_t := Node {
  weights : list value;
  bias : value;
  cached : cached_t
}.

(** A layer is an array of nodes. *)
Abbreviation layer_t := (list node_t).

(** The object passed to [new Network(...)]. *)
Record definition_t := Def {
  network : list layer_t;
  updateMultiplier : value;
  activationFunction : value → value;
  activationFunctionDerivative : value → value;
  errorFunction : value → value → value;
  errorFunctionDerivative : value → value → value
}.

(** The object [new Network(definition)] yields: [this.definition]. *)
Record network_t := Net { definition : definition_t }.

(** [function Network(definition) { this.definition = definition; }] *)
Definition Network (d : definition_t) : completion network_t :=
  Normal {| definition := d |}.

(** [Network.node = function(weights, bias) {...}] *)
Definition Network_node (weights : list value) (bias : value) : node_t :=
  {| weights := weights;
     bias := bias;
     cached := {| input := zero;
                  output := zero;
                  weightUpdates := (λ _, zero) <$> weights;
                  biasUpdate := zero;
                  errorWrtIn := zero |} |}.

(** *** Field assignments *)

Definition set_input (v : value) (c : cached_t) : cached_t :=
  {| input := v; output := output c; weightUpdates := weightUpdates c;
     biasUpdate := biasUpdate c; errorWrtIn := errorWrtIn c |}.
Definition set_output (v : value) (c : cached_t) : cached_t :=
  {| input := input c; output := v; weightUpdates := weightUpdates c;
     biasUpdate := biasUpdate c; errorWrtIn := errorWrtIn c |}.
Definition set_weightUpdates (u : list value) (c : cached_t) : cached_t :=
  {| input := input c; output := output c; weightUpdates := u;
     biasUpdate := biasUpdate c; errorWrtIn := errorWrtIn c |}.
Definition set_biasUpdate (v : value) (c : cached_t) : cached_t :=
  {| input := input c; output := output c; weightUpdates := weightUpdates c;
     biasUpdate := v; errorWrtIn := errorWrtIn c |}.
Definition set_errorWrtIn (v : value) (c : cached_t) : cached_t :=
  {| input := input c; output := output c; weightUpdates := weightUpdates c;
     biasUpdate := biasUpdate c; errorWrtIn := v |}.

(** [node.cached.f = v] *)
Definition assign_cached (f : cached_t → cached_t) : M node_t unit :=
  fun node =>
    ({| weights := weights node; bias := bias node;
        cached := f (cached node) |}, Normal tt).

(** [node.weights = w] *)
Definition assign_weights (w : list value) : M node_t unit :=
  fun node =>
    ({| weights := w; bias := bias node; cached := cached node |},
     Normal tt).

(** The layers are reached through [this.definition.network]; a method
    that works on the array [network[i]] in place runs a computation on
    that layer. *)
Definition layers (this : network_t) : list layer_t :=
  network (definition this).

Definition with_layers (net : list layer_t) (this : network_t) : network_t :=
  let d := definition this in
  {| definition :=
       {| network := net;
          updateMultiplier := updateMultiplier d;
          activationFunction := activationFunction d;
          activationFunctionDerivative := activationFunctionDerivative d;
          errorFunction := errorFunction d;
          errorFunctionDerivative := errorFunctionDerivative d |} |}.

(** [network.forEach(...)] *)
Definition on_network (m : M (list layer_t) unit) : M network_t unit :=
  fun this =>
    let '(net', r) := m (layers this) in (with_layers net' this, r).

(** [network[i].forEach(...)], throwing when [network[i]] is
    [undefined]. *)
Definition on_layer (i : Z) (m : M layer_t unit) : M network_t unit :=
  fun this =>
    match idx (layers this) i with
    | None => (this, Throw TypeError)
    | Some layer =>
        let '(layer', r) := m layer in
        (with_layers (<[Z.to_nat i := layer']> (layers this)) this, r)
    end.

(** [previousLayer[i].cached.output], where [previousLayer] itself may
    be [undefined]. *)
Definition output_at (l : option layer_t) (i : nat) : completion value :=
  match l with
  | None => Throw TypeError
  | Some l =>
      match l !! i with
      | None => Throw TypeError
      | Some node => Normal (output (cached node))
      end
  end.

(** ** [Network.prototype.feedInputs] *)

Definition feedNode (activationFunction : value → value)
    (lastLayer : option layer_t) : M node_t unit :=
  node ← get;
  input ← lift (reduce
             (λ v w i,
                match output_at lastLayer i with
                | Normal o => Normal (add v (mul o w))
                | Throw e => Throw e
                end)
             zero (weights node));
  let input := add input (bias node) in
  assign_cached (set_input input);;
  assign_cached (set_output (activationFunction input)).

Definition feedInputs (inputs : list value) : M network_t unit :=
  this ← get;
  let activationFunction := activationFunction (definition this) in
  on_layer 0 (forEach (λ i,
    assign_cached (set_output (nth i inputs undefined))));;
  for_up (length (layers this) - 1) 1 (λ i,
    this ← get;
    let lastLayer := idx (layers this) (Z.of_nat i - 1) in
    on_layer (Z.of_nat i) (forEach (λ _,
      feedNode activationFunction lastLayer))).

(** ** [Network.prototype.outputs] *)

Definition outputs : M network_t (list value) :=
  this ← get;
  let network := layers this in
  layer ← deref (idx network (Z.of_nat (length network) - 1));
  mret ((λ node, output (cached node)) <$> layer).

(** ** [Network.prototype.totalError] *)

Definition totalError (expected : list value) : M network_t value :=
  this ← get;
  let network := layers this in
  let errorFunction := errorFunction (definition this) in
  layer ← deref (idx network (Z.of_nat (length network) - 1));
  lift (reduce
          (λ sum node i,
             Normal (add sum (errorFunction (output (cached node))
                                            (nth i expected undefined))))
          zero layer).

(** ** [Network.prototype.trainingStep] *)

(** The callback of the [forEach] over the output layer. *)
Definition proposeOutputNode (this : network_t) (expected : list value)
    (previousLayer : option layer_t) (i : nat) : M node_t unit :=
  let d := definition this in
  node ← get;
  let output := output (cached node) in
  let errorWrtOut :=
    errorFunctionDerivative d output (nth i expected undefined) in
  let input := input (cached node) in
  let outWrtIn := activationFunctionDerivative d input in
  let errorWrtIn := mul errorWrtOut outWrtIn in
  assign_cached (set_errorWrtIn errorWrtIn);;
  updates ← lift (map_js
    (λ weight i,
       match output_at previousLayer i with
       | Normal inWrtWeight =>
           Normal (neg (mul (mul errorWrtIn inWrtWeight)
                            (updateMultiplier d)))
       | Throw e => Throw e
       end)
    (weights node));
  assign_cached (set_weightUpdates updates);;
  assign_cached (set_biasUpdate
    (mul (mul errorWrtIn one) (updateMultiplier d))).

(** The callback of the [forEach] over a hidden layer. *)
Definition proposeHiddenNode (this : network_t)
    (previousLayer nextLayer : option layer_t) (i : nat) : M node_t unit :=
  let d := definition this in
  node ← get;
  nextLayer ← deref nextLayer;
  let errorWrtOut :=
    fold_left
      (λ sum nextNode,
         let errorWrtNextInput := errorWrtIn (cached nextNode) in
         let nextInputWrtOut := nth i (weights nextNode) undefined in
         add sum (mul errorWrtNextInput nextInputWrtOut))
      nextLayer zero in
  let outWrtIn := activationFunctionDerivative d (input (cached node)) in
  let errorWrtIn := mul errorWrtOut outWrtIn in
  assign_cached (set_errorWrtIn errorWrtIn);;
  updates ← lift (map_js
    (λ weight i,
       match output_at previousLayer i with
       | Normal inWrtWeight =>
           Normal (mul (mul (mul (neg one) errorWrtIn) inWrtWeight)
                       (updateMultiplier d))
       | Throw e => Throw e
       end)
    (weights node));
  assign_cached (set_weightUpdates updates);;
  assign_cached (set_biasUpdate
    (mul (mul errorWrtIn one) (updateMultiplier d))).

(** The callback of the inner [forEach] of the last loop. *)
Definition applyNode : M node_t unit :=
  node ← get;
  assign_weights
    (imap (λ i w, add w (nth i (weightUpdates (cached node)) undefined))
          (weights node)).

(** The first half of [trainingStep]: the forward pass and the proposals
    for the output layer. *)
Definition proposeOutputLayer (inputs expected : list value) :
    M network_t unit :=
  feedInputs inputs;;
  error ← totalError expected;
  outputs ← outputs;
  this ← get;
  let network := layers this in
  let previousLayer := idx network (Z.of_nat (length network) - 2) in
  on_layer (Z.of_nat (length network) - 1)
    (forEach (proposeOutputNode this expected previousLayer)).

(** The body of the loop over the hidden layers, for layer [i]. *)
Definition proposeHiddenLayer (i : nat) : M network_t unit :=
  this ← get;
  let network := layers this in
  let previousLayer := idx network (Z.of_nat i - 1) in
  let nextLayer := idx network (Z.of_nat i + 1) in
  on_layer (Z.of_nat i)
    (forEach (proposeHiddenNode this previousLayer nextLayer)).

(** [for (let i = network.length-2; i > 0; i--) {...}] *)
Definition proposeHiddenLayers : M network_t unit :=
  this ← get;
  for_down (length (layers this) - 2) proposeHiddenLayer.

(** The last loop: [network.forEach(layer => layer.forEach(...))]. *)
Definition applyUpdates : M network_t unit :=
  on_network (forEach (λ _, forEach (λ _, applyNode))).

Definition trainingStep (inputs expected : list value) : M network_t unit :=
  proposeOutputLayer inputs expected;;
  proposeHiddenLayers;;
  applyUpdates.

(** ** The methods as functions on lists

    What a call computes when it runs to completion, written without
    the monad; the lemmas below show that the methods compute this on
    every network in which no node has more weights than the previous
    layer has nodes. *)

Definition upd_cached (f : cached_t → cached_t) (node : node_t) : node_t :=
  {| weights := weights node; bias := bias node;
     cached := f (cached node) |}.

(** [Σ_i lastLayer[i].cached.output * weights[i]], summed from the left
    starting at [init]. *)
Definition weightedSum (lastLayer : layer_t) (ws : list value)
    (init : value) : value :=
  fold_left (λ v wp, add v (mul (output (cached wp.2)) wp.1))
            (zip ws lastLayer) init.

Definition fwdNode (act : value → value) (lastLayer : layer_t)
    (node : node_t) : node_t :=
  let input := add (weightedSum lastLayer (weights node) zero) (bias node) in
  upd_cached (set_output (act input)) (upd_cached (set_input input) node).

Definition setInputs (inputs : list value) (layer : layer_t) : layer_t :=
  imap (λ i, upd_cached (set_output (nth i inputs undefined))) layer.

Fixpoint forward_from (act : value → value) (lastLayer : layer_t)
    (rest : list layer_t) : list layer_t :=
  match rest with
  | [] => []
  | layer :: rest =>
      let layer' := fwdNode act lastLayer <$> layer in
      layer' :: forward_from act layer' rest
  end.

Definition forward (act : value → value) (inputs : list value)
    (net : list layer_t) : list layer_t :=
  match net with
  | [] => []
  | layer0 :: rest =>
      let layer0' := setInputs inputs layer0 in
      layer0' :: forward_from act layer0' rest
  end.

(** No node of [rest] has more weights than the layer before it has
    nodes; [n] is the size of the layer before the first of [rest]. *)
Fixpoint wired_from (n : nat) (rest : list layer_t) : Prop :=
  match rest with
  | [] => True
  | layer :: rest =>
      Forall (λ node, length (weights node) ≤ n) layer
      ∧ wired_from (length layer) rest
  end.

Definition wired (net : list layer_t) : Prop :=
  match net with
  | [] => False
  | layer0 :: rest => wired_from (length layer0) rest
  end.

(** The proposals of one node, from its error with respect to its
    input. *)
Definition proposals (um : value) (update : value → value → value)
    (errorWrtIn : value) (previousLayer : layer_t) (node : node_t) : node_t :=
  upd_cached (set_biasUpdate (mul (mul errorWrtIn one) um))
    (upd_cached
       (set_weightUpdates
          (zip_with (λ _ p, update errorWrtIn (output (cached p)))
                    (weights node) previousLayer))
       (upd_cached (set_errorWrtIn errorWrtIn) node)).

Definition outNode (um : value) (errorDerivative : value → value → value)
    (activationDerivative : value → value) (expected : list value)
    (previousLayer : layer_t) (i : nat) (node : node_t) : node_t :=
  let errorWrtIn :=
    mul (errorDerivative (output (cached node)) (nth i expected undefined))
        (activationDerivative (input (cached node))) in
  proposals um (λ e o, neg (mul (mul e o) um))
    errorWrtIn previousLayer node.

(** [Σ_k nextLayer[k].cached.errorWrtIn * nextLayer[k].weights[i]] *)
Definition fanIn (nextLayer : layer_t) (i : nat) : value :=
  fold_left
    (λ sum nextNode,
       add sum (mul (errorWrtIn (cached nextNode))
                    (nth i (weights nextNode) undefined)))
    nextLayer zero.

Definition hidNode (um : value) (activationDerivative : value → value)
    (previousLayer nextLayer : layer_t) (i : nat) (node : node_t) : node_t :=
  let errorWrtIn :=
    mul (fanIn nextLayer i) (activationDerivative (input (cached node))) in
  proposals um (λ e o, mul (mul (mul (neg one) e) o) um)
    errorWrtIn previousLayer node.

(** The proposals for the hidden layers [hidden] that follow
    [previousLayer], given the layers [done] after them, which have
    their proposals already; a hidden layer is done after the layer that
    follows it. *)
Fixpoint backward_hidden (um : value) (activationDerivative : value → value)
    (previousLayer : layer_t) (hidden done : list layer_t) : list layer_t :=
  match hidden with
  | [] => done
  | layer :: hidden =>
      match backward_hidden um activationDerivative layer hidden done with
      | [] => []
      | nextLayer :: done =>
          imap (hidNode um activationDerivative previousLayer nextLayer)
               layer :: nextLayer :: done
      end
  end.

(** The proposals for the layers [rest] that follow [previousLayer]; the
    last of [rest] is the output layer. *)
Fixpoint backward (um : value) (errorDerivative : value → value → value)
    (activationDerivative : value → value) (expected : list value)
    (previousLayer : layer_t) (rest : list layer_t) : list layer_t :=
  match rest with
  | [] => []
  | layer :: rest =>
      match backward um errorDerivative activationDerivative expected
                     layer rest with
      | [] =>
          [imap (outNode um errorDerivative activationDerivative expected
                         previousLayer) layer]
      | nextLayer :: done =>
          imap (hidNode um activationDerivative previousLayer nextLayer)
               layer :: nextLayer :: done
      end
  end.

Definition applyPure (node : node_t) : node_t :=
  {| weights :=
       imap (λ i w, add w (nth i (weightUpdates (cached node)) undefined))
            (weights node);
     bias := bias node;
     cached := cached node |}.

(** The network after the forward pass and all proposals, before any
    weight is updated. *)
Definition proposed (d : definition_t) (inputs expected : list value) :
    list layer_t :=
  match forward (activationFunction d) inputs (network d) with
  | [] => []
  | layer0 :: rest =>
      layer0 :: backward (updateMultiplier d) (errorFunctionDerivative d)
                         (activationFunctionDerivative d) expected
                         layer0 rest
  end.

(** The network after the weight updates. *)
Definition trained (d : definition_t) (inputs expected : list value) :
    list layer_t :=
  fmap (M:=list) applyPure <$> proposed d inputs expected.

(** The layer before the layers that follow [pre], when [prev] is the
    layer before [pre]. *)
Definition lastOr (prev : layer_t) (pre : list layer_t) : layer_t :=
  default prev (last pre).

(** The weights and bias of every node. *)
Definition params (net : list layer_t) : list (list (list value * value)) :=
  fmap (M:=list) (λ node, (weights node, bias node)) <$> net.

(** [cached.output] of every node. *)
Definition activations (net : list layer_t) : list (list value) :=
  fmap (M:=list) (λ node, output (cached node)) <$> net.

(** [cached.input] of every node after the input layer. *)
Definition netInputs (net : list layer_t) : list (list value) :=
  fmap (M:=list) (λ node, input (cached node)) <$> tail net.

(** Node [i] of layer [l]. *)
Definition node_at (net : list layer_t) (l i : nat) : option node_t :=
  layer ← net !! l; layer !! i.

End Network.

Arguments cached_t value : clear implicits.
Arguments node_t value : clear implicits.
Arguments definition_t value : clear implicits.
Arguments network_t value : clear implicits.

(** [wired] can be decided by running it. *)
#[global] Instance wired_from_dec {value} n (rest : list (list (node_t value))) :
  Decision (wired_from n rest).
Proof. revert n. induction rest as [|l rest IH]; intros n; simpl; apply _. Defined.

#[global] Instance wired_dec {value} (net : list (list (node_t value))) :
  Decision (wired net).
Proof. destruct net; simpl; apply _. Defined.

(** ** Further notions, and the run of example.js *)

Section Run.
Context {value : Type}.
(** The number of weights of every node. *)
Definition shape (net : list (list (node_t value))) : list (list nat) :=
  fmap (M:=list) (λ node, length (weights node)) <$> net.

(** What a method never assigns: everything in the definition but the
    network. *)
Definition settings {ops : JsOps value} (this : network_t value) :=
  let d := definition this in
  (updateMultiplier d, activationFunction d, activationFunctionDerivative d,
   errorFunction d, errorFunctionDerivative d).

(** ** The run of example.js

    What [console.log] is given, line by line; how a number is written
    out is left aside. *)
Inductive line :=
| Banner (step : nat)
| Output (outs : list value)
| Error (err : value).

(** The network object of the script and what has been printed. *)
Record world := World { net : network_t value; console : list line }.

Context {ops : JsOps value}.

(** A method call on [network]. *)
Definition on_net {A} (m : M (network_t value) A) : M world A :=
  fun w =>
    let '(this', r) := m (net w) in
    ({| net := this'; console := console w |}, r).

Definition console_log (l : line) : M world unit :=
  fun w => ({| net := net w; console := console w ++ [l] |}, Normal tt).

(** [function printStats(network, step)], the vector [[0.01, 0.99]] being
    [expected]. *)
Definition printStats (expected : list value) (step : nat) : M world unit :=
  console_log (Banner step);;
  outs ← on_net outputs;
  console_log (Output outs);;
  err ← on_net (totalError expected);
  console_log (Error err).

(** The statements after the definitions, for the vectors
    [inputs = [0.05, 0.10]] and [expected = [0.01, 0.99]] and [n = 10000]
    steps. *)
Definition script (inputs expected : list value) (n : nat) : M world unit :=
  on_net (feedInputs inputs);;
  printStats expected 0;;
  for_up n 1 (λ i,
    on_net (trainingStep inputs expected);;
    if decide (i = 1 ∨ i mod 1000 = 0) then printStats expected i
    else mret tt).

(** What the forward pass leaves in a node and the proposals read. *)
Definition core (node : node_t value) :=
  (weights node, bias node, input (cached node), output (cached node)).

(** One proposed update for every weight. *)
Definition consistent (node : node_t value) : Prop :=
  length (weightUpdates (cached node)) = length (weights node).

(** The number of steps of the loop of example.js: [10000]. *)
Definition example_steps : nat := 10 * 1000.

(** The steps of the banners printed. *)
Definition banners (c : list line) : list nat :=
  omap (λ l, match l with Banner step => Some step | _ => None end) c.
End Run.
Arguments line value : clear implicits.
Arguments world value : clear implicits.

(** ** JavaScript numbers as binary64 floats

    The operators of the source on the values that occur: numbers are
    IEEE 754 binary64, and an operand that is [undefined] converts to
    [NaN]. *)

Module Js.

Inductive jsval :=
| Num (f : float)
| Undefined.

(** [ToNumber] *)
Definition toNumber (v : jsval) : float :=
  match v with
  | Num f => f
  | Undefined => nan
  end.

Definition sub (a b : jsval) : jsval := Num (toNumber a - toNumber b)%float.

#[global] Instance js_ops : JsOps jsval := {|
  undefined := Undefined;
  zero := Num 0%float;
  one := Num 1%float;
  add a b := Num (toNumber a + toNumber b)%float;
  mul a b := Num (toNumber a * toNumber b)%float;
  neg a := Num (- toNumber a)%float
|}.

(** A network of the shape of the one in example.js, with weights that
    binary64 holds exactly and a linear activation:
    [activationFunction: val => val],
    [activationFunctionDerivative: val => 1],
    [errorFunction: (output, expected) =>
       0.5 * (expected - output) * (expected - output)],
    [errorFunctionDerivative: (output, expected) => output - expected]. *)
Definition demo_output : list (node_t jsval) :=
  [ Network_node [Num 0.5; Num 0.5] (Num 0.25);
    Network_node [Num 0.25; Num 0.75] (Num 0.25) ]%float.

Definition demo_network : list (list (node_t jsval)) :=
  [ [ Network_node [] (Num 0); Network_node [] (Num 0) ];
    [ Network_node [Num 0.5; Num 0.25] (Num 0.5);
      Network_node [Num 0.25; Num 0.5] (Num 0.5) ];
    demo_output ]%float.

Definition linear (net : list (list (node_t jsval))) : definition_t jsval :=
  {| network := net;
     updateMultiplier := Num 0.5%float;
     activationFunction := λ val, val;
     activationFunctionDerivative := λ val, Num 1%float;
     errorFunction := λ output expected,
       mul (mul (Num 0.5%float) (sub expected output)) (sub expected output);
     errorFunctionDerivative := λ output expected, sub output expected |}.

Definition demo : network_t jsval := {| definition := linear demo_network |}.

Definition demo_inputs : list jsval := [Num 1; Num 2]%float.
Definition demo_expected : list jsval := [Num 0; Num 1]%float.

(** A single layer: no output layer apart from the input layer. *)
Definition one_layer : list (list (node_t jsval)) :=
  [ [ Network_node [] (Num 0); Network_node [] (Num 0) ] ]%float.

(** A hidden node with three weights after an input layer of two
    nodes. *)
Definition too_many_weights : list (list (node_t jsval)) :=
  [ [ Network_node [] (Num 0); Network_node [] (Num 0) ];
    [ Network_node [Num 0.5; Num 0.25; Num 1] (Num 0.5) ];
    [ Network_node [Num 0.5] (Num 0.25) ] ]%float.

(** Two hidden layers. *)
Definition demo4_network : list (list (node_t jsval)) :=
  [ [ Network_node [] (Num 0); Network_node [] (Num 0) ];
    [ Network_node [Num 0.5; Num 0.25] (Num 0.5);
      Network_node [Num 0.25; Num 0.5] (Num 0.5) ];
    [ Network_node [Num 0.5; Num 0.5] (Num 0.25);
      Network_node [Num 0.25; Num 0.75] (Num 0.25) ];
    [ Network_node [Num 1; Num 0.5] (Num 0);
      Network_node [Num 0.5; Num 1] (Num 0.25) ] ]%float.

Definition demo4 : network_t jsval := {| definition := linear demo4_network |}.

(** [Js.demo] after a forward pass: same weights and biases, other cached
    values. *)
Definition demo_fed : network_t jsval := (feedInputs demo_inputs demo).1.

Definition single : network_t jsval := {| definition := linear one_layer |}.

Definition miswired : network_t jsval :=
  {| definition := linear too_many_weights |}.

(** [Js.demo] after a step with one expected output too few, which
    leaves [NaN] in some of the weights. *)
Definition demo_poisoned : network_t jsval :=
  (trainingStep demo_inputs [Num 0%float] demo).1.

End Js.

(** ** JavaScript numbers as real numbers with rounding

    For the numbers of the worked example of example.js.  A number is a
    real number and [None] is [undefined] or [NaN]; an operation returns
    the exact result rounded by [rnd], a decimal literal is the rounded
    decimal, and [Math.exp] and [Math.pow] are the functions [fexp] and
    [fpow].  What is assumed of [rnd] and [fexp] is stated where it is
    used ([rnd_spec] and [fexp_spec] below): a relative error of at most
    [10 ^ -9] on the numbers that occur, which binary64 arithmetic and
    its [Math.exp] stay far below.  With [rnd] the identity and [fexp]
    the exponential this is exact real arithmetic. *)

Definition rval := option R.

(** A function of numbers on values: [NaN] when an argument is no
    number. *)
Definition lift1 (f : R → R) (a : rval) : rval :=
  match a with Some x => Some (f x) | None => None end.
Definition lift2 (f : R → R → R) (a b : rval) : rval :=
  match a, b with Some x, Some y => Some (f x y) | _, _ => None end.

Section Rounded.
Variable rnd : R → R.
Variable fexp : R → R.
Variable fpow : R → R → R.

#[local] Instance rounded_ops : JsOps rval := {|
  undefined := None;
  zero := Some 0%R;
  one := Some 1%R;
  add := lift2 (λ x y, rnd (x + y))%R;
  mul := lift2 (λ x y, rnd (x * y))%R;
  neg := lift1 Ropp |}.

(** A decimal literal of the source. *)
Definition lit (c : R) : rval := Some (rnd c).

(** The definition that example.js passes to [new Network(...)]. *)
Definition example : network_t rval :=
  {| definition :=
       {| network :=
            [ [ Network_node [] (Some 0%R); Network_node [] (Some 0%R) ];
              [ Network_node [lit 0.15; lit 0.2] (lit 0.35);
                Network_node [lit 0.25; lit 0.3] (lit 0.35) ];
              [ Network_node [lit 0.4; lit 0.45] (lit 0.6);
                Network_node [lit 0.5; lit 0.55] (lit 0.6) ] ];
          updateMultiplier := lit 0.5;
          activationFunction :=
            lift1 (λ val, rnd (1 / rnd (1 + fexp (- val))))%R;
          activationFunctionDerivative :=
            lift1 (λ val,
                     let a := rnd (1 / rnd (1 + fexp (- val))) in
                     rnd (a * rnd (1 - a)))%R;
          errorFunction :=
            lift2 (λ output expected,
                     rnd (rnd 0.5 * fpow (rnd (expected - output)) 2))%R;
          errorFunctionDerivative :=
            lift2 (λ output expected, rnd (output - expected))%R
       |} |}.

(** [network.trainingStep([0.05, 0.10], [0.01, 0.99])] *)
Definition example_inputs : list rval := [lit 0.05; lit 0.10].
Definition example_expected : list rval := [lit 0.01; lit 0.99].

End Rounded.

(** Exact real arithmetic: nothing is rounded, [Math.exp] is the
    exponential and [Math.pow(x, 2)] the square. *)
Definition exact_ops : JsOps rval := rounded_ops (λ x, x).
Definition exact_example : network_t rval :=
  example (λ x, x) exp (λ x _, (x * x)%R).
Definition exact_inputs : list rval := example_inputs (λ x, x).
Definition exact_expected : list rval := example_expected (λ x, x).

(** ** The first example: the forward pass on arrays of numbers

    [network], [activationFunction] and [forwardPass] of the file that
    precedes network.js, on numbers that round as above.  [forwardPass]
    calls [layer.map]: a layer is taken to
    be either an array of arrays of weights, which has [map], or an
    object [{weights: ..., bias: ...}] as in the [network] of the file,
    which has not. *)

Module Functional.

Inductive layer :=
| Nodes (nodes : list (list rval))
| Object (weights : list (list rval)) (bias : rval).

Section Rounded.
Variable rnd : R → R.
Variable fexp : R → R.

(** The constant [network] of the file. *)
Definition network : list layer :=
  [ Object [ [lit rnd 0.15; lit rnd 0.2]; [lit rnd 0.25; lit rnd 0.3] ]
           (lit rnd 0.35);
    Object [ [lit rnd 0.40; lit rnd 0.45]; [lit rnd 0.5; lit rnd 0.55] ]
           (lit rnd 0.6) ].

Definition activationFunction (val : rval) : rval :=
  lift1 (λ val, rnd (1 / rnd (1 + fexp val)))%R val.

(** [inputWeights.reduce((v, w, inputIndex) => v + inputs[inputIndex] * w,
    0)], from index [inputIndex] on. *)
Fixpoint weigh_from (inputIndex : nat) (v : rval) (inputWeights : list rval)
    (inputs : list rval) : rval :=
  match inputWeights with
  | [] => v
  | w :: rest =>
      weigh_from (S inputIndex)
        (add (JsOps:=rounded_ops rnd) v
           (mul (JsOps:=rounded_ops rnd) (nth inputIndex inputs None) w))
        rest inputs
  end.

(** [layer.map(inputWeights => ...)] *)
Definition forwardLayer (inputs : list rval) (l : layer) :
    completion (list rval) :=
  match l with
  | Nodes nodes =>
      Normal ((λ inputWeights,
                 let val := weigh_from 0 (Some 0%R) inputWeights inputs in
                 activationFunction val) <$> nodes)
  | Object _ _ => Throw TypeError
  end.

Fixpoint forwardPass (network : list layer) (inputs : list rval) :
    completion (list rval) :=
  match network with
  | [] => Normal inputs
  | l :: network =>
      match forwardLayer inputs l with
      | Normal inputs => forwardPass network inputs
      | Throw e => Throw e
      end
  end.

End Rounded.

Definition is_nodes (l : layer) : Prop :=
  match l with Nodes _ => True | Object _ _ => False end.

End Functional.

(** ** Fixed-point enclosures of real numbers

    Used to bound the numbers of the worked example: the integers [lo]
    and [hi] of an interval stand for [lo / scale] and [hi / scale], and
    every operation rounds outwards. *)

Definition scale : Z := 10 ^ 18.

Record interval := Interval { lo : Z; hi : Z }.

Definition contains (I : interval) (x : R) : Prop :=
  (IZR (lo I) <= x * IZR scale <= IZR (hi I))%R.

(** Division rounded up. *)
Definition cdiv (a b : Z) : Z := (- ((- a) / b))%Z.

Definition I_int (n : Z) : interval :=
  {| lo := n * scale; hi := n * scale |}.
Definition I_ratio (n d : Z) : interval :=
  {| lo := n * scale / d; hi := cdiv (n * scale) d |}.
Definition I_add (I J : interval) : interval :=
  {| lo := lo I + lo J; hi := hi I + hi J |}.
Definition I_sub (I J : interval) : interval :=
  {| lo := lo I - hi J; hi := hi I - lo J |}.
Definition I_neg (I : interval) : interval :=
  {| lo := - hi I; hi := - lo I |}.
(** Product of two intervals of non-negative numbers. *)
Definition I_mul (I J : interval) : interval :=
  {| lo := lo I * lo J / scale; hi := cdiv (hi I * hi J) scale |}.

(** [a ^ (2 ^ k)] in fixed point, every square rounded down. *)
Definition sq_down (a : Z) : Z := (a * a / scale)%Z.
Fixpoint sq_iter (k : nat) (a : Z) : Z :=
  match k with
  | O => a
  | S k => sq_iter k (sq_down a)
  end.

(** Lower bounds of [exp (- n / scale)] and of [exp (n / scale)] for
    [0 <= n], from [1 + y <= exp y] at [y = ∓ n / scale / 2 ^ k]. *)
Definition exp_neg_lower (k : nat) (n : Z) : Z :=
  sq_iter k (scale - cdiv n (2 ^ Z.of_nat k)).
Definition exp_pos_lower (k : nat) (n : Z) : Z :=
  sq_iter k (scale + n / 2 ^ Z.of_nat k).

(** [exp (- x)] for [x] in an interval of non-negative numbers. *)
Definition I_exp_neg (k : nat) (I : interval) : interval :=
  {| lo := exp_neg_lower k (hi I);
     hi := cdiv (scale * scale) (exp_pos_lower k (lo I)) |}.

(** [1 / x] for [x] in an interval of positive numbers. *)
Definition I_inv (I : interval) : interval :=
  {| lo := scale * scale / hi I; hi := cdiv (scale * scale) (lo I) |}.

(** Every [y] within relative distance [10 ^ -9] of a number of an
    interval of non-negative numbers. *)
Definition I_widen (I : interval) : interval :=
  {| lo := lo I - cdiv (lo I) (10 ^ 9); hi := hi I + cdiv (hi I) (10 ^ 9) |}.

(** * Properties *)

(** ** The loop combinators *)

Section Combinators.
Context {A B St : Type}.

Lemma idx_of_nat (a : list A) (i : nat) : idx a (Z.of_nat i) = a !! i.
Proof.
  unfold idx. destruct (Z.ltb_spec (Z.of_nat i) 0); [lia|].
  by rewrite Nat2Z.id.
Qed.

Lemma forEach_from_pure (f : nat → M A unit) (g : nat → A → A) k (l : list A) :
  (∀ i x, l !! i = Some x → f (k + i) x = (g (k + i) x, Normal tt)) →
  forEach_from f k l = (imap (λ i, g (k + i)) l, Normal tt).
Proof.
  revert k. induction l as [|x l IH]; intros k Hf; [done|].
  simpl. rewrite <- (Nat.add_0_r k) at 1. rewrite (Hf 0 x eq_refl).
  rewrite (IH (S k)).
  - rewrite Nat.add_0_r. f_equal. f_equal. apply imap_ext. intros i y _. simpl.
    by replace (k + S i) with (S (k + i)) by lia.
  - intros i y Hy. replace (S k + i) with (k + S i) by lia. by apply Hf.
Qed.

Lemma forEach_pure (f : nat → M A unit) (g : nat → A → A) (l : list A) :
  (∀ i x, l !! i = Some x → f i x = (g i x, Normal tt)) →
  forEach f l = (imap g l, Normal tt).
Proof. intros Hf. unfold forEach. by rewrite (forEach_from_pure f g 0 l). Qed.

Lemma forEach_map (f : nat → M A unit) (g : A → A) (l : list A) :
  (∀ i x, l !! i = Some x → f i x = (g x, Normal tt)) →
  forEach f l = (g <$> l, Normal tt).
Proof.
  intros Hf. rewrite (forEach_pure f (λ _, g)) by done.
  by rewrite <- (imap_const g l).
Qed.

End Combinators.


(** ** The methods compute the list functions *)

Section Facts.
Context {value : Type} {ops : JsOps value}.
Implicit Types (this : network_t value) (net : list (list (node_t value))).
Implicit Types (layer prev : list (node_t value)).
Implicit Types (pre post rest : list (list (node_t value))).
Implicit Types (node : node_t value).

Local Arguments output_at : simpl never.

Lemma layers_with_layers net this : layers (with_layers net this) = net.
Proof. done. Qed.

Lemma with_layers_twice net1 net2 this :
  with_layers net2 (with_layers net1 this) = with_layers net2 this.
Proof. done. Qed.

Lemma with_layers_id net this : layers this = net → with_layers net this = this.
Proof. intros <-. by destruct this as [[]]. Qed.

Lemma on_layer_run (i : nat) (m : M (list (node_t value)) unit) this layer layer' r :
  layers this !! i = Some layer →
  m layer = (layer', r) →
  on_layer (Z.of_nat i) m this
  = (with_layers (<[i := layer']> (layers this)) this, r).
Proof.
  intros Hl Hm. unfold on_layer. rewrite idx_of_nat, Hl, Hm.
  by rewrite Nat2Z.id.
Qed.

Lemma bind_run {St A B} (m : M St A) (k : A → M St B) s s' a :
  m s = (s', Normal a) → (m ≫= k) s = k a s'.
Proof. intros Hm. unfold mbind, M_bind. by rewrite Hm. Qed.

Lemma reduce_from_feed prev (ws : list value) i init :
  length ws + i ≤ length prev →
  reduce_from
    (λ v w i,
       match output_at (Some prev) i with
       | Normal o => Normal (add v (mul o w))
       | Throw e => Throw e
       end) i init ws
  = Normal (weightedSum (drop i prev) ws init).
Proof.
  revert i init. induction ws as [|w ws IH]; intros i init Hlen; [done|].
  simpl in *. destruct (lookup_lt_is_Some_2 prev i) as [p Hp]; [lia|].
  unfold output_at at 1. rewrite Hp, IH by lia.
  by rewrite (drop_S _ _ _ Hp).
Qed.

Lemma feedNode_pure act prev node :
  length (weights node) ≤ length prev →
  feedNode act (Some prev) node = (fwdNode act prev node, Normal tt).
Proof.
  intros Hlen. unfold feedNode, mbind, M_bind, get, lift, reduce. 
  rewrite reduce_from_feed by lia. by rewrite drop_0.
Qed.

Lemma feed_loop act done prev todo this :
  layers this = done ++ prev :: todo →
  wired_from (length prev) todo →
  for_up (length todo) (S (length done))
    (λ i,
       this ← get;
       let lastLayer := idx (layers this) (Z.of_nat i - 1) in
       on_layer (Z.of_nat i) (forEach (λ _, feedNode act lastLayer))) this
  = (with_layers (done ++ prev :: forward_from act prev todo) this, Normal tt).
Proof.
  revert done prev this.
  induction todo as [|layer todo IH]; intros done prev this Hnet Hw.
  { simpl. unfold mret, M_ret. by rewrite with_layers_id. }
  destruct Hw as [Hw1 Hw2]. cbn [length for_up forward_from].
  set (layer' := fwdNode act prev <$> layer).
  erewrite bind_run; last first.
  { unfold mbind, M_bind, get.
    replace (Z.of_nat (S (length done)) - 1)%Z with (Z.of_nat (length done)) by lia.
    rewrite idx_of_nat, Hnet, list_lookup_middle by done.
    apply (on_layer_run _ _ _ layer layer').
    - rewrite Hnet. by rewrite (lookup_app_r done) by lia; rewrite Nat.sub_succ_l, Nat.sub_diag.
    - apply forEach_map. intros i x Hx. apply feedNode_pure.
      by apply (Forall_lookup_1 _ _ _ _ Hw1 Hx). }
  rewrite Hnet.
  replace (<[S (length done):=layer']> (done ++ prev :: layer :: todo))
    with ((done ++ [prev]) ++ layer' :: todo).
  2:{ rewrite <- app_assoc. simpl. rewrite insert_app_r_alt by lia.
      by rewrite Nat.sub_succ_l, Nat.sub_diag. }
  replace (S (S (length done))) with (S (length (done ++ [prev])))
    by (rewrite length_app; simpl; lia).
  rewrite (IH (done ++ [prev]) layer').
  - rewrite with_layers_twice. by rewrite <- app_assoc.
  - done.
  - unfold layer'. by rewrite length_fmap.
Qed.

Lemma feedInputs_pure inputs this :
  wired (layers this) →
  feedInputs inputs this
  = (with_layers (forward (activationFunction (definition this)) inputs
                          (layers this)) this, Normal tt).
Proof.
  intros Hw. destruct (layers this) as [|layer0 rest] eqn:Hnet; [done|].
  simpl in Hw. unfold feedInputs.
  rewrite (bind_run _ _ this this this) by done. rewrite Hnet.
  erewrite bind_run; last first.
  { apply (on_layer_run 0 _ _ layer0 (setInputs inputs layer0)).
    - by rewrite Hnet.
    - by apply forEach_pure. }
  rewrite Hnet. cbn [length]. rewrite Nat.sub_succ, Nat.sub_0_r. simpl insert.
  rewrite (feed_loop _ [] (setInputs inputs layer0) rest).
  - by rewrite with_layers_twice.
  - done.
  - unfold setInputs. by rewrite length_imap.
Qed.

Lemma map_from_outputs {B} (g : value → B) (prev : list (node_t value)) (ws : list value) i :
  length ws + i ≤ length prev →
  map_from
    (λ _ i,
       match output_at (Some prev) i with
       | Normal o => Normal (g o)
       | Throw e => Throw e
       end) i ws
  = Normal (zip_with (λ _ p, g (output (cached p))) ws (drop i prev)).
Proof.
  revert i. induction ws as [|w ws IH]; intros i Hlen; [done|].
  simpl in *. destruct (lookup_lt_is_Some_2 prev i) as [p Hp]; [lia|].
  unfold output_at at 1. rewrite Hp, IH by lia. by rewrite (drop_S _ _ _ Hp).
Qed.

Lemma proposeOutputNode_pure this expected (prev : list (node_t value)) i node :
  length (weights node) ≤ length prev →
  proposeOutputNode this expected (Some prev) i node
  = (outNode (updateMultiplier (definition this))
             (errorFunctionDerivative (definition this))
             (activationFunctionDerivative (definition this))
             expected prev i node, Normal tt).
Proof.
  intros Hlen. unfold proposeOutputNode, mbind, M_bind, get, lift, map_js.
  simpl.
  set (e := mul _ (activationFunctionDerivative _ _)).
  rewrite (map_from_outputs
             (λ o, neg (mul (mul e o) (updateMultiplier (definition this)))))
    by (simpl; lia).
  by rewrite drop_0.
Qed.

Lemma proposeHiddenNode_pure this (prev next : list (node_t value)) i node :
  length (weights node) ≤ length prev →
  proposeHiddenNode this (Some prev) (Some next) i node
  = (hidNode (updateMultiplier (definition this))
             (activationFunctionDerivative (definition this))
             prev next i node, Normal tt).
Proof.
  intros Hlen. unfold proposeHiddenNode, mbind, M_bind, get, lift, map_js.
  simpl.
  set (e := mul _ (activationFunctionDerivative _ _)).
  rewrite (map_from_outputs
             (λ o, mul (mul (mul (neg one) e) o)
                       (updateMultiplier (definition this))))
    by (simpl; lia).
  by rewrite drop_0.
Qed.

Lemma applyUpdates_pure this :
  applyUpdates this
  = (with_layers (fmap (M:=list) applyPure <$> layers this) this, Normal tt).
Proof.
  unfold applyUpdates, on_network.
  rewrite (forEach_map _ (fmap applyPure)); [done|].
  intros i layer _. by apply forEach_map.
Qed.

Lemma outputs_run this layer :
  last (layers this) = Some layer →
  outputs this = (this, Normal ((λ node, output (cached node)) <$> layer)).
Proof.
  intros Hl. unfold outputs, mbind, M_bind, get.
  rewrite last_lookup in Hl. 
  replace (Z.of_nat (length (layers this)) - 1)%Z
    with (Z.of_nat (pred (length (layers this)))).
  - by rewrite idx_of_nat, Hl.
  - destruct (layers this); [done|simpl; lia].
Qed.

Lemma reduce_from_error (err : value → value → value) expected
    (layer : list (node_t value)) k init :
  reduce_from
    (λ sum node i,
       Normal (add sum (err (output (cached node))
                            (nth i expected undefined)))) k init layer
  = Normal (fold_left add
              (imap (λ i node, err (output (cached node))
                                   (nth (k + i) expected undefined)) layer)
              init).
Proof.
  revert k init. induction layer as [|n l IH]; intros k init; [done|].
  simpl. rewrite IH, Nat.add_0_r. do 2 f_equal.
  apply imap_ext. intros i x _. simpl. by replace (k + S i) with (S (k + i)) by lia.
Qed.

Lemma totalError_run expected this layer :
  last (layers this) = Some layer →
  totalError expected this
  = (this, Normal (fold_left add
                     (imap (λ i node,
                              errorFunction (definition this)
                                (output (cached node))
                                (nth i expected undefined)) layer)
                     zero)).
Proof.
  intros Hl. unfold totalError, mbind, M_bind, get.
  rewrite last_lookup in Hl.
  replace (Z.of_nat (length (layers this)) - 1)%Z
    with (Z.of_nat (pred (length (layers this)))).
  - rewrite idx_of_nat, Hl. simpl. unfold lift, reduce.
    by rewrite reduce_from_error.
  - destruct (layers this); [done|simpl; lia].
Qed.

Lemma lastOr_cons prev layer pre : lastOr prev (layer :: pre) = lastOr layer pre.
Proof.
  unfold lastOr. destruct pre as [|l' pre]; [done|].
  by rewrite last_cons_cons; destruct (last (l' :: pre)) eqn:E;
    [|by rewrite last_None in E].
Qed.

Lemma lookup_lastOr prev pre post :
  (prev :: pre ++ post) !! length pre = Some (lastOr prev pre).
Proof.
  revert prev. induction pre as [|l pre IH]; intros prev; [done|].
  rewrite lastOr_cons. simpl. apply IH.
Qed.

Lemma wired_from_app n (a b : list (list (node_t value))) :
  wired_from n (a ++ b)
  ↔ wired_from n a ∧ wired_from (default n (length <$> last a)) b.
Proof.
  revert n. induction a as [|l a IH]; intros n; simpl; [tauto|].
  rewrite IH. destruct a as [|l' a]; [simpl; tauto|].
  rewrite last_cons_cons.
  destruct (last (l' :: a)) eqn:E; [simpl; tauto|by rewrite last_None in E].
Qed.

Lemma wired_from_snoc prev pre layer :
  wired_from (length prev) (pre ++ [layer])
  ↔ wired_from (length prev) pre
    ∧ Forall (λ node, length (weights node) ≤ length (lastOr prev pre)) layer.
Proof.
  rewrite wired_from_app. unfold lastOr. simpl.
  destruct (last pre); simpl; tauto.
Qed.

Lemma backward_hidden_nonempty um actD prev pre done :
  done ≠ [] → backward_hidden um actD prev pre done ≠ [].
Proof.
  revert prev. induction pre as [|l pre IH]; intros prev Hd; [done|].
  simpl. specialize (IH l Hd).
  by destruct (backward_hidden um actD l pre done).
Qed.

Lemma backward_hidden_snoc um actD prev pre layer nx post :
  backward_hidden um actD prev (pre ++ [layer]) (nx :: post)
  = backward_hidden um actD prev pre
      (imap (hidNode um actD (lastOr prev pre) nx) layer :: nx :: post).
Proof.
  revert prev. induction pre as [|l pre IH]; intros prev; [done|].
  simpl. by rewrite IH, lastOr_cons.
Qed.

Lemma backward_snoc um errD actD expected prev pre out :
  backward um errD actD expected prev (pre ++ [out])
  = backward_hidden um actD prev pre
      [imap (outNode um errD actD expected (lastOr prev pre)) out].
Proof.
  revert prev. induction pre as [|l pre IH]; intros prev; [done|].
  simpl. rewrite IH, lastOr_cons.
  pose proof (backward_hidden_nonempty um actD l pre
    [imap (outNode um errD actD expected (lastOr l pre)) out]) as Hne.
  by destruct (backward_hidden _ _ l pre _); [destruct Hne|].
Qed.

Lemma hidden_loop l0 pre nx post this :
  layers this = l0 :: pre ++ nx :: post →
  wired_from (length l0) pre →
  for_down (length pre) proposeHiddenLayer this
  = (with_layers
       (l0 :: backward_hidden (updateMultiplier (definition this))
                (activationFunctionDerivative (definition this))
                l0 pre (nx :: post)) this, Normal tt).
Proof.
  revert nx post this.
  induction pre as [|layer pre IH] using rev_ind; intros nx post this Hnet Hw.
  { simpl. unfold mret, M_ret. by rewrite with_layers_id. }
  apply wired_from_snoc in Hw as [Hw1 Hw2].
  rewrite length_app, Nat.add_1_r. cbn [for_down].
  set (um := updateMultiplier (definition this)).
  set (actD := activationFunctionDerivative (definition this)).
  set (layer' := imap (hidNode um actD (lastOr l0 pre) nx) layer).
  rewrite <- app_assoc in Hnet. simpl in Hnet.
  erewrite bind_run; last first.
  { unfold proposeHiddenLayer, mbind, M_bind, get.
    replace (Z.of_nat (S (length pre)) - 1)%Z with (Z.of_nat (length pre)) by lia.
    replace (Z.of_nat (S (length pre)) + 1)%Z with (Z.of_nat (S (S (length pre)))) by lia.
    rewrite !idx_of_nat, Hnet, lookup_lastOr.
    replace ((l0 :: pre ++ layer :: nx :: post) !! S (S (length pre)))
      with (Some nx).
    2:{ simpl. rewrite lookup_app_r by lia.
        by rewrite Nat.sub_succ_l, Nat.sub_diag. }
    apply (on_layer_run _ _ _ layer layer').
    - rewrite Hnet. simpl. by rewrite list_lookup_middle.
    - apply forEach_pure. intros i x Hx. apply proposeHiddenNode_pure.
      by apply (Forall_lookup_1 _ _ _ _ Hw2 Hx). }
  rewrite Hnet.
  replace (<[S (length pre):=layer']> (l0 :: pre ++ layer :: nx :: post))
    with (l0 :: pre ++ layer' :: nx :: post).
  2:{ simpl. rewrite insert_app_r_alt by lia. by rewrite Nat.sub_diag. }
  rewrite (IH layer' (nx :: post)); [|done..].
  rewrite with_layers_twice. by rewrite backward_hidden_snoc.
Qed.

Lemma wired_from_forward_from act n prev rest :
  wired_from n rest → wired_from n (forward_from act prev rest).
Proof.
  revert n prev. induction rest as [|l rest IH]; intros n prev; [done|].
  simpl. intros [Hl Hr]. split.
  - by apply Forall_fmap.
  - rewrite length_fmap. by apply IH.
Qed.

Lemma wired_forward act inputs net : wired net → wired (forward act inputs net).
Proof.
  destruct net as [|l0 rest]; [done|]. simpl. unfold setInputs.
  rewrite length_imap. apply wired_from_forward_from.
Qed.

Lemma length_forward_from act prev rest :
  length (forward_from act prev rest) = length rest.
Proof.
  revert prev. induction rest as [|l rest IH]; intros prev; [done|].
  simpl. by rewrite IH.
Qed.

Lemma length_forward act inputs net : length (forward act inputs net) = length net.
Proof. destruct net; [done|]. simpl. by rewrite length_forward_from. Qed.

Lemma proposeOutputLayer_pure inputs expected this l0 pre out :
  wired (layers this) →
  forward (activationFunction (definition this)) inputs (layers this)
    = l0 :: pre ++ [out] →
  proposeOutputLayer inputs expected this
  = (with_layers
       (l0 :: pre ++
          [imap (outNode (updateMultiplier (definition this))
                   (errorFunctionDerivative (definition this))
                   (activationFunctionDerivative (definition this))
                   expected (lastOr l0 pre)) out]) this, Normal tt).
Proof.
  intros Hw Hfwd. unfold proposeOutputLayer.
  pose proof (wired_forward (activationFunction (definition this)) inputs _ Hw) as Hw1.
  rewrite Hfwd in Hw1. simpl in Hw1. apply wired_from_snoc in Hw1 as [_ Hout].
  erewrite bind_run; [|by apply feedInputs_pure].
  rewrite Hfwd.
  set (this1 := with_layers _ this).
  assert (last (layers this1) = Some out) as Hlast.
  { subst this1. rewrite layers_with_layers.
    by rewrite last_cons, last_snoc. }
  erewrite bind_run; [|by apply totalError_run].
  erewrite bind_run; [|by apply outputs_run].
  erewrite bind_run; [|done].
  subst this1. rewrite layers_with_layers.
  replace (length (l0 :: pre ++ [out])) with (S (S (length pre)))
    by (simpl; rewrite length_app; simpl; lia).
  replace (Z.of_nat (S (S (length pre))) - 2)%Z with (Z.of_nat (length pre)) by lia.
  replace (Z.of_nat (S (S (length pre))) - 1)%Z with (Z.of_nat (S (length pre))) by lia.
  rewrite idx_of_nat, lookup_lastOr.
  erewrite on_layer_run; [| |apply forEach_pure].
  - rewrite with_layers_twice, layers_with_layers. simpl.
    rewrite insert_app_r_alt by lia. by rewrite Nat.sub_diag.
  - rewrite layers_with_layers. simpl. by rewrite list_lookup_middle.
  - intros i x Hx. rewrite proposeOutputNode_pure; [done|].
    by apply (Forall_lookup_1 _ _ _ _ Hout Hx).
Qed.

Lemma proposeHiddenLayers_pure l0 pre out this :
  layers this = l0 :: pre ++ [out] →
  wired_from (length l0) pre →
  proposeHiddenLayers this
  = (with_layers
       (l0 :: backward_hidden (updateMultiplier (definition this))
                (activationFunctionDerivative (definition this))
                l0 pre [out]) this, Normal tt).
Proof.
  intros Hnet Hw. unfold proposeHiddenLayers.
  erewrite bind_run; [|done].
  replace (length (layers this) - 2) with (length pre)
    by (rewrite Hnet; simpl; rewrite length_app; simpl; lia).
  by apply hidden_loop.
Qed.

Lemma trainingStep_pure inputs expected this :
  wired (layers this) →
  2 ≤ length (layers this) →
  trainingStep inputs expected this
  = (with_layers (trained (definition this) inputs expected) this, Normal tt).
Proof.
  intros Hw Hlen.
  pose proof (wired_forward (activationFunction (definition this)) inputs _ Hw) as Hw1.
  pose proof (length_forward (activationFunction (definition this)) inputs (layers this)) as Hlen1.
  destruct (forward _ inputs (layers this)) as [|l0 rest] eqn:Hfwd;
    [simpl in *; lia|].
  destruct rest as [|out pre _] using rev_ind; [simpl in *; lia|].
  simpl in Hw1. apply wired_from_snoc in Hw1 as [Hpre _].
  unfold trainingStep.
  erewrite bind_run; [|by eapply proposeOutputLayer_pure].
  erewrite bind_run; [|by eapply proposeHiddenLayers_pure].
  rewrite applyUpdates_pure, with_layers_twice, layers_with_layers.
  unfold trained, proposed. unfold layers in Hfwd. rewrite Hfwd.
  by rewrite backward_snoc.
Qed.
End Facts.

(** ** When [feedInputs] throws *)

Section Throws.
Context {value : Type} {ops : JsOps value}.
Implicit Types (this : network_t value) (net : list (list (node_t value))).
Implicit Types (layer prev : list (node_t value)).
Implicit Types (node : node_t value).

Local Arguments output_at : simpl never.

Lemma reduce_from_feed_throw prev (ws : list value) i init :
  i ≤ length prev →
  length prev < length ws + i →
  reduce_from
    (λ v w i,
       match output_at (Some prev) i with
       | Normal o => Normal (add v (mul o w))
       | Throw e => Throw e
       end) i init ws
  = Throw TypeError.
Proof.
  revert i init. induction ws as [|w ws IH]; intros i init Hi Hlen;
    [simpl in *; lia|].
  simpl in *. unfold output_at at 1.
  destruct (prev !! i) as [p|] eqn:Hp; [|done].
  apply lookup_lt_Some in Hp. apply IH; lia.
Qed.

Lemma feedNode_throw act prev node :
  length prev < length (weights node) →
  feedNode act (Some prev) node = (node, Throw TypeError).
Proof.
  intros Hlen. unfold feedNode, mbind, M_bind, get, lift, reduce.
  by rewrite reduce_from_feed_throw by lia.
Qed.

Lemma forEach_from_throw {A} (f : nat → M A unit) (P : A → Prop) k (l : list A) :
  (∀ i x, P x → (f i x).2 = Normal tt) →
  (∀ i x, ¬ P x → (f i x).2 = Throw TypeError) →
  (∀ x, Decision (P x)) →
  ¬ Forall P l →
  (forEach_from f k l).2 = Throw TypeError.
Proof.
  intros Hok Hbad Hdec. revert k.
  induction l as [|x l IH]; intros k Hl; [by destruct Hl|].
  simpl. destruct (decide (P x)) as [Hx|Hx].
  - specialize (Hok k x Hx). destruct (f k x) as [x' [[]|e]]; simplify_eq/=.
    specialize (IH (S k)). destruct (forEach_from f (S k) l) as [l' r].
    simpl in *. apply IH. intros Hall. apply Hl. by constructor.
  - specialize (Hbad k x Hx). by destruct (f k x) as [x' [[]|[]]]; simplify_eq/=.
Qed.

Lemma bind_throws {St A B} (m : M St A) (k : A → M St B) s e :
  (m s).2 = Throw e → ((m ≫= k) s).2 = Throw e.
Proof.
  intros Hm. unfold mbind, M_bind.
  destruct (m s) as [s' [a|e']]; simpl in *; congruence.
Qed.

Lemma feed_step_throw act done prev layer todo this :
  layers this = done ++ prev :: layer :: todo →
  ¬ Forall (λ node, length (weights node) ≤ length prev) layer →
  ((this ← get;
    let lastLayer := idx (layers this) (Z.of_nat (S (length done)) - 1) in
    on_layer (Z.of_nat (S (length done)))
      (forEach (λ _, feedNode act lastLayer))) this).2
  = Throw TypeError.
Proof.
  intros Hnet Hfit. unfold mbind, M_bind, get.
  replace (Z.of_nat (S (length done)) - 1)%Z with (Z.of_nat (length done)) by lia.
  rewrite idx_of_nat, Hnet, list_lookup_middle by done.
  unfold on_layer. rewrite idx_of_nat, Hnet.
  rewrite (lookup_app_r done) by lia. rewrite Nat.sub_succ_l, Nat.sub_diag by lia.
  simpl.
  pose proof (forEach_from_throw (λ _, feedNode act (Some prev))
                (λ node, length (weights node) ≤ length prev) 0 layer) as Ht.
  unfold forEach.
  destruct (forEach_from _ 0 layer) as [l' r]. simpl in *.
  apply Ht; [| |apply _|done].
  - intros _ x Hx. by rewrite feedNode_pure.
  - intros _ x Hx. rewrite feedNode_throw; [done|lia].
Qed.

Lemma feed_loop_throw act done prev todo this :
  layers this = done ++ prev :: todo →
  ¬ wired_from (length prev) todo →
  (for_up (length todo) (S (length done))
     (λ i,
        this ← get;
        let lastLayer := idx (layers this) (Z.of_nat i - 1) in
        on_layer (Z.of_nat i) (forEach (λ _, feedNode act lastLayer))) this).2
  = Throw TypeError.
Proof.
  revert done prev this.
  induction todo as [|layer todo IH]; intros done prev this Hnet Hw;
    [by destruct Hw|].
  cbn [length for_up].
  destruct (decide (Forall (λ node, length (weights node) ≤ length prev) layer))
    as [Hfit|Hfit]; [|apply bind_throws; by eapply feed_step_throw].
  set (layer' := fwdNode act prev <$> layer).
  erewrite bind_run; last first.
  { unfold mbind, M_bind, get.
    replace (Z.of_nat (S (length done)) - 1)%Z with (Z.of_nat (length done)) by lia.
    rewrite idx_of_nat, Hnet, list_lookup_middle by done.
    apply (on_layer_run _ _ _ layer layer').
    - rewrite Hnet. by rewrite (lookup_app_r done) by lia; rewrite Nat.sub_succ_l, Nat.sub_diag.
    - apply forEach_map. intros i x Hx. apply feedNode_pure.
      by apply (Forall_lookup_1 _ _ _ _ Hfit Hx). }
  rewrite Hnet.
  replace (<[S (length done):=layer']> (done ++ prev :: layer :: todo))
    with ((done ++ [prev]) ++ layer' :: todo).
  2:{ rewrite <- app_assoc. simpl. rewrite insert_app_r_alt by lia.
      by rewrite Nat.sub_succ_l, Nat.sub_diag. }
  replace (S (S (length done))) with (S (length (done ++ [prev])))
    by (rewrite length_app; simpl; lia).
  apply (IH (done ++ [prev]) layer'); [done|].
  unfold layer'. rewrite length_fmap. intros Hrest. apply Hw. by split.
Qed.

Lemma feedInputs_completes_iff inputs this :
  (feedInputs inputs this).2 = Normal tt ↔ wired (layers this).
Proof.
  split; [|intros Hw; by rewrite feedInputs_pure].
  intros Hrun. destruct (layers this) as [|layer0 rest] eqn:Hnet.
  { unfold feedInputs, mbind, M_bind, get, on_layer in Hrun.
    by rewrite Hnet in Hrun. }
  simpl. destruct (decide (wired_from (length layer0) rest)) as [|Hw]; [done|].
  exfalso. unfold feedInputs in Hrun.
  rewrite (bind_run _ _ this this this) in Hrun by done.
  erewrite bind_run in Hrun; last first.
  { apply (on_layer_run 0 _ _ layer0 (setInputs inputs layer0)).
    - by rewrite Hnet.
    - by apply forEach_pure. }
  rewrite Hnet in Hrun. cbn [length] in Hrun.
  rewrite Nat.sub_succ, Nat.sub_0_r in Hrun. simpl insert in Hrun.
  rewrite (feed_loop_throw _ [] (setInputs inputs layer0) rest) in Hrun; [done|done|].
  unfold setInputs. by rewrite length_imap.
Qed.
End Throws.

(** ** Lookups in the list functions *)

Section Lookups.
Context {value : Type} {ops : JsOps value}.
Implicit Types (this that : network_t value) (net : list (list (node_t value))).
Implicit Types (layer prev : list (node_t value)).
Implicit Types (pre post rest : list (list (node_t value))).
Implicit Types (node : node_t value).

Lemma wired_from_lookup n prev rest l layer p :
  length prev = n →
  wired_from n rest →
  rest !! l = Some layer →
  (prev :: rest) !! l = Some p →
  Forall (λ node, length (weights node) ≤ length p) layer.
Proof.
  revert n prev l. induction rest as [|x rest IH]; intros n prev l Hn Hw Hl Hp; [done|].
  destruct Hw as [Hw1 Hw2]. destruct l as [|l]; simpl in *.
  - by simplify_eq.
  - by eapply (IH _ x l).
Qed.

Lemma wired_lookup net l layer p :
  wired net →
  net !! S l = Some layer →
  net !! l = Some p →
  Forall (λ node, length (weights node) ≤ length p) layer.
Proof.
  destruct net as [|l0 rest]; [done|]. simpl. intros Hw Hl Hp.
  by eapply wired_from_lookup.
Qed.

Lemma forward_from_lookup act prev rest k :
  forward_from act prev rest !! k
  = (layer ← rest !! k;
     p ← (prev :: forward_from act prev rest) !! k;
     Some (fwdNode act p <$> layer)).
Proof.
  revert prev k. induction rest as [|l rest IH]; intros prev k; [done|].
  destruct k as [|k]; [done|]. simpl. by rewrite IH.
Qed.

Lemma forward_lookup_0 act inputs net :
  forward act inputs net !! 0 = setInputs inputs <$> net !! 0.
Proof. by destruct net. Qed.

Lemma forward_lookup_S act inputs net k :
  forward act inputs net !! S k
  = (layer ← net !! S k;
     p ← forward act inputs net !! k;
     Some (fwdNode act p <$> layer)).
Proof. destruct net as [|l0 rest]; [done|]. simpl. apply forward_from_lookup. Qed.

Lemma length_backward um errD actD expected prev rest :
  length (backward um errD actD expected prev rest) = length rest.
Proof.
  revert prev. induction rest as [|l rest IH]; intros prev; [done|].
  simpl. specialize (IH l).
  destruct (backward um errD actD expected l rest); simpl in *; [|lia].
  by rewrite <- IH.
Qed.

Lemma backward_lookup um errD actD expected prev rest k :
  backward um errD actD expected prev rest !! k
  = (layer ← rest !! k;
     p ← (prev :: rest) !! k;
     Some (match backward um errD actD expected prev rest !! S k with
           | Some nextLayer => imap (hidNode um actD p nextLayer) layer
           | None => imap (outNode um errD actD expected p) layer
           end)).
Proof.
  revert prev k. induction rest as [|l rest IH]; intros prev k; [done|].
  simpl. pose proof (length_backward um errD actD expected l rest) as Hlen.
  specialize (IH l).
  destruct (backward um errD actD expected l rest) as [|nx done].
  - destruct rest; [|done]. by destruct k as [|[|k]].
  - destruct k as [|k]; [done|]. simpl. by rewrite IH.
Qed.

Lemma proposed_lookup_0 d inputs expected :
  proposed d inputs expected !! 0
  = forward (activationFunction d) inputs (network d) !! 0.
Proof. unfold proposed. by destruct (forward _ _ _). Qed.

Lemma proposed_lookup_S d inputs expected k :
  proposed d inputs expected !! S k
  = (layer ← forward (activationFunction d) inputs (network d) !! S k;
     p ← forward (activationFunction d) inputs (network d) !! k;
     Some (match proposed d inputs expected !! S (S k) with
           | Some nextLayer =>
               imap (hidNode (updateMultiplier d)
                       (activationFunctionDerivative d) p nextLayer) layer
           | None =>
               imap (outNode (updateMultiplier d)
                       (errorFunctionDerivative d)
                       (activationFunctionDerivative d) expected p) layer
           end)).
Proof.
  unfold proposed. destruct (forward _ _ _) as [|l0 rest]; [done|].
  simpl. apply backward_lookup.
Qed.

Lemma length_proposed d inputs expected :
  length (proposed d inputs expected) = length (network d).
Proof.
  unfold proposed.
  pose proof (length_forward (activationFunction d) inputs (network d)) as Hlen.
  destruct (forward _ _ _); [done|]. simpl in *.
  by rewrite length_backward.
Qed.

Lemma length_trained d inputs expected :
  length (trained d inputs expected) = length (network d).
Proof. unfold trained. by rewrite length_fmap, length_proposed. Qed.

(** *** What the passes leave alone *)

Lemma forward_from_frame {X} (g : node_t value → X) act prev rest :
  (∀ p node, g (fwdNode act p node) = g node) →
  fmap (M:=list) g <$> forward_from act prev rest = fmap g <$> rest.
Proof.
  intros Hg. revert prev. induction rest as [|l rest IH]; intros prev; [done|].
  simpl. rewrite IH. f_equal. rewrite <- list_fmap_compose.
  apply list_fmap_ext. intros i x _. apply Hg.
Qed.

Lemma forward_frame {X} (g : node_t value → X) act inputs net :
  (∀ v node, g (upd_cached (set_output v) node) = g node) →
  (∀ v node, g (upd_cached (set_input v) node) = g node) →
  fmap (M:=list) g <$> forward act inputs net = fmap g <$> net.
Proof.
  intros Hout Hin. destruct net as [|l0 rest]; [done|]. simpl. f_equal.
  - unfold setInputs. apply list_eq. intros i.
    rewrite !list_lookup_fmap, list_lookup_imap.
    destruct (l0 !! i); [|done]. simpl. by rewrite Hout.
  - apply forward_from_frame. intros p node. unfold fwdNode.
    by rewrite Hout, Hin.
Qed.

Lemma backward_frame {X} (g : node_t value → X) um errD actD expected prev rest :
  (∀ upd e p node, g (proposals um upd e p node) = g node) →
  fmap (M:=list) g <$> backward um errD actD expected prev rest = fmap g <$> rest.
Proof.
  intros Hg. revert prev. induction rest as [|l rest IH]; intros prev; [done|].
  simpl. specialize (IH l).
  destruct (backward um errD actD expected l rest) as [|nx done].
  - destruct rest; [|done]. simpl. f_equal. apply list_eq. intros i.
    rewrite !list_lookup_fmap, list_lookup_imap.
    destruct (l !! i); [|done]. simpl. unfold outNode. by rewrite Hg.
  - rewrite fmap_cons, IH. f_equal. apply list_eq. intros i.
    rewrite !list_lookup_fmap, list_lookup_imap.
    destruct (l !! i); [|done]. simpl. unfold hidNode. by rewrite Hg.
Qed.

Lemma proposed_frame {X} (g : node_t value → X) d inputs expected :
  (∀ upd e p node, g (proposals (updateMultiplier d) upd e p node) = g node) →
  fmap (M:=list) g <$> proposed d inputs expected
  = fmap g <$> forward (activationFunction d) inputs (network d).
Proof.
  intros Hg. unfold proposed. destruct (forward _ _ _) as [|l0 rest]; [done|].
  rewrite !fmap_cons. f_equal. by apply backward_frame.
Qed.

Lemma trained_frame {X} (g : node_t value → X) d inputs expected :
  (∀ node, g (applyPure node) = g node) →
  fmap (M:=list) g <$> trained d inputs expected
  = fmap g <$> proposed d inputs expected.
Proof.
  intros Hg. unfold trained. rewrite <- list_fmap_compose.
  apply list_fmap_ext. intros i l _. simpl. rewrite <- list_fmap_compose.
  apply list_fmap_ext. intros j x _. apply Hg.
Qed.

Lemma node_at_fmap {X} (g : node_t value → X) net net' l i node :
  fmap (M:=list) g <$> net = fmap g <$> net' →
  node_at net l i = Some node →
  ∃ node', node_at net' l i = Some node' ∧ g node = g node'.
Proof.
  intros Heq Hn. unfold node_at in *.
  apply (f_equal (λ x, x !! l)) in Heq. rewrite !list_lookup_fmap in Heq.
  destruct (net !! l) as [layer|]; [|done].
  destruct (net' !! l) as [layer'|]; [|done]. simpl in *.
  injection Heq as Heq. apply (f_equal (λ x, x !! i)) in Heq.
  rewrite !list_lookup_fmap, Hn in Heq.
  destruct (layer' !! i) as [node'|]; [|done]. simpl in Heq.
  exists node'. split; [done|congruence].
Qed.
End Lookups.

(** ** What a call leaves alone, whether it returns or throws *)

Section Preserved.
Context {St X : Type} (φ : St → X).

Lemma bind_preserves {A B} (m : M St A) (k : A → M St B) s :
  (∀ s, φ (m s).1 = φ s) →
  (∀ a s, φ (k a s).1 = φ s) →
  φ ((m ≫= k) s).1 = φ s.
Proof.
  intros Hm Hk. unfold mbind, M_bind. specialize (Hm s).
  destruct (m s) as [s' [a|e]]; simpl in *; [|done].
  by rewrite Hk.
Qed.

Lemma for_up_preserves n lo (body : nat → M St unit) s :
  (∀ i s, φ (body i s).1 = φ s) → φ (for_up n lo body s).1 = φ s.
Proof.
  intros Hb. revert lo s. induction n as [|n IH]; intros lo s; [done|].
  simpl. by apply bind_preserves.
Qed.

Lemma for_down_preserves hi (body : nat → M St unit) s :
  (∀ i s, φ (body i s).1 = φ s) → φ (for_down hi body s).1 = φ s.
Proof.
  intros Hb. revert s. induction hi as [|n IH]; intros s; [done|].
  simpl. by apply bind_preserves.
Qed.
End Preserved.

Lemma forEach_from_preserves {A X} (g : A → X) (f : nat → M A unit) k (l : list A) :
  (∀ i x, g (f i x).1 = g x) →
  g <$> (forEach_from f k l).1 = g <$> l.
Proof.
  intros Hf. revert k. induction l as [|x l IH]; intros k; [done|].
  cbn [forEach_from]. pose proof (Hf k x) as Hx. pose proof (IH (S k)) as IHk.
  destruct (f k x) as [x' [[]|e]].
  - destruct (forEach_from f (S k) l) as [l' r]. cbn [fst] in *.
    rewrite !fmap_cons. by f_equal.
  - cbn [fst] in *. rewrite !fmap_cons. by f_equal.
Qed.

Section Frame.
Context {value : Type} {ops : JsOps value}.
Context {X : Type} (g : node_t value → X).
Implicit Types (this that : network_t value) (net : list (list (node_t value))).
Implicit Types (node : node_t value).

(** [g] does not look at [node.cached]. *)
Hypothesis g_cached : ∀ f node, g (upd_cached f node) = g node.

Lemma on_layer_preserves i (m : M (list (node_t value)) unit) this :
  (∀ layer, g <$> (m layer).1 = g <$> layer) →
  fmap (M:=list) g <$> layers (on_layer i m this).1 = fmap g <$> layers this.
Proof.
  intros Hm. unfold on_layer, idx. destruct (i <? 0)%Z; [done|].
  destruct (layers this !! Z.to_nat i) as [layer|] eqn:Hl; [|done].
  specialize (Hm layer). destruct (m layer) as [layer' r]. cbn [fst] in *.
  rewrite layers_with_layers, list_fmap_insert, Hm. apply list_insert_id.
  by rewrite list_lookup_fmap, Hl.
Qed.

Lemma assign_cached_preserves f node : g (assign_cached f node).1 = g node.
Proof. apply g_cached. Qed.

Ltac preserve :=
  repeat first
    [ done
    | apply assign_cached_preserves
    | apply (bind_preserves g); intros
    | apply (bind_preserves (λ this, fmap (M:=list) g <$> layers this)); intros
    | apply (for_up_preserves (λ this, fmap (M:=list) g <$> layers this)); intros
    | apply (for_down_preserves (λ this, fmap (M:=list) g <$> layers this)); intros
    | apply on_layer_preserves; intros
    | apply forEach_from_preserves; intros
    | match goal with |- context [deref ?o] => destruct o end
    | match goal with |- context [lift ?c] => destruct c end ].

Lemma feedNode_preserves act lastLayer node :
  g (feedNode act lastLayer node).1 = g node.
Proof. unfold feedNode. preserve. Qed.

Lemma proposeOutputNode_preserves this expected previousLayer i node :
  g (proposeOutputNode this expected previousLayer i node).1 = g node.
Proof. unfold proposeOutputNode. preserve. Qed.

Lemma proposeHiddenNode_preserves this previousLayer nextLayer i node :
  g (proposeHiddenNode this previousLayer nextLayer i node).1 = g node.
Proof. unfold proposeHiddenNode. preserve. Qed.

Lemma feedInputs_preserves inputs this :
  fmap (M:=list) g <$> layers (feedInputs inputs this).1 = fmap g <$> layers this.
Proof.
  unfold feedInputs, forEach. preserve.
Qed.

Lemma outputs_preserves this :
  fmap (M:=list) g <$> layers (outputs this).1 = fmap g <$> layers this.
Proof. unfold outputs. preserve. Qed.

Lemma totalError_preserves expected this :
  fmap (M:=list) g <$> layers (totalError expected this).1 = fmap g <$> layers this.
Proof. unfold totalError. preserve. Qed.

Lemma proposeOutputLayer_preserves inputs expected this :
  fmap (M:=list) g <$> layers (proposeOutputLayer inputs expected this).1
  = fmap g <$> layers this.
Proof.
  unfold proposeOutputLayer, forEach. preserve.
Qed.

Lemma proposeHiddenLayers_preserves this :
  fmap (M:=list) g <$> layers (proposeHiddenLayers this).1 = fmap g <$> layers this.
Proof.
  unfold proposeHiddenLayers, forEach. preserve.
Qed.
End Frame.

(** ** The claims *)

Section Claims.
Context {value : Type} {ops : JsOps value}.
Implicit Types (this that : network_t value) (net : list (list (node_t value))).
Implicit Types (layer prev : list (node_t value)).
Implicit Types (pre post rest : list (list (node_t value))).
Implicit Types (node : node_t value).

Lemma weightedSum_ext prev prev' (ws : list value) init :
  (λ node, output (cached node)) <$> prev = (λ node, output (cached node)) <$> prev' →
  weightedSum prev ws init = weightedSum prev' ws init.
Proof.
  revert prev prev' init. unfold weightedSum.
  induction ws as [|w ws IH]; intros prev prev' init Heq; [done|].
  destruct prev as [|p prev], prev' as [|p' prev']; try done.
  simpl in *. injection Heq as Hp Heq. rewrite Hp. by apply IH.
Qed.

Lemma fwdLayer_ext (g : node_t value → value) act prev prev' layer layer' :
  (∀ node node', weights node = weights node' → bias node = bias node' →
     g (fwdNode act prev node) = g (fwdNode act prev' node')) →
  (λ node, (weights node, bias node)) <$> layer
    = (λ node, (weights node, bias node)) <$> layer' →
  g <$> (fwdNode act prev <$> layer) = g <$> (fwdNode act prev' <$> layer').
Proof.
  intros Hg Hl. apply list_eq. intros i.
  apply (f_equal (λ x, x !! i)) in Hl. rewrite !list_lookup_fmap in *.
  destruct (layer !! i) as [n|], (layer' !! i) as [n'|]; try done.
  simpl in *. injection Hl as Hw Hb. by rewrite (Hg n n').
Qed.

Lemma forward_from_ext act prev prev' rest rest' :
  (λ node, output (cached node)) <$> prev = (λ node, output (cached node)) <$> prev' →
  params rest = params rest' →
  activations (forward_from act prev rest) = activations (forward_from act prev' rest')
  ∧ fmap (M:=list) (λ node, input (cached node)) <$> forward_from act prev rest
    = fmap (λ node, input (cached node)) <$> forward_from act prev' rest'.
Proof.
  revert prev prev' rest'.
  induction rest as [|l rest IH]; intros prev prev' rest' Hp Hr;
    destruct rest' as [|l' rest']; try done.
  unfold params in Hr. simpl in Hr. injection Hr as Hl Hr.
  unfold activations. simpl.
  assert ((λ node, output (cached node)) <$> (fwdNode act prev <$> l)
          = (λ node, output (cached node)) <$> (fwdNode act prev' <$> l')) as Ho.
  { apply fwdLayer_ext; [|done]. intros n n' Hw Hb. simpl.
    by rewrite Hw, Hb, (weightedSum_ext prev prev'). }
  assert ((λ node, input (cached node)) <$> (fwdNode act prev <$> l)
          = (λ node, input (cached node)) <$> (fwdNode act prev' <$> l')) as Hi.
  { apply fwdLayer_ext; [|done]. intros n n' Hw Hb. simpl.
    by rewrite Hw, Hb, (weightedSum_ext prev prev'). }
  destruct (IH _ _ rest' Ho Hr) as [IHo IHi]. unfold activations in IHo.
  split; by f_equal.
Qed.

Lemma forward_ext act inputs net net' :
  params net = params net' →
  activations (forward act inputs net) = activations (forward act inputs net')
  ∧ netInputs (forward act inputs net) = netInputs (forward act inputs net').
Proof.
  intros Hp. destruct net as [|l0 rest], net' as [|l0' rest']; try done.
  unfold params in Hp. simpl in Hp. injection Hp as Hl Hr.
  assert ((λ node, output (cached node)) <$> setInputs inputs l0
          = (λ node, output (cached node)) <$> setInputs inputs l0') as H0.
  { unfold setInputs. apply list_eq. intros i.
    apply (f_equal (λ x, x !! i)) in Hl.
    rewrite !list_lookup_fmap, !list_lookup_imap in *.
    by destruct (l0 !! i), (l0' !! i). }
  destruct (forward_from_ext act _ _ rest rest' H0 Hr) as [Ho Hi].
  unfold activations, netInputs in *. simpl. split; [by f_equal|done].
Qed.
Lemma wired_from_params n rest rest' :
  params rest = params rest' → wired_from n rest → wired_from n rest'.
Proof.
  revert n rest'. induction rest as [|l rest IH]; intros n rest' Hp Hw;
    destruct rest' as [|l' rest']; try done.
  unfold params in Hp. simpl in Hp. injection Hp as Hl Hr.
  destruct Hw as [Hw1 Hw2]. split.
  - apply Forall_lookup. intros i n' Hn'.
    apply (f_equal (λ x, x !! i)) in Hl. rewrite !list_lookup_fmap, Hn' in Hl.
    destruct (l !! i) as [n0|] eqn:Hn0; [|done]. simpl in Hl.
    injection Hl as Hw Hb. rewrite <- Hw.
    by apply (Forall_lookup_1 _ _ _ _ Hw1 Hn0).
  - apply (f_equal length) in Hl. rewrite !length_fmap in Hl.
    rewrite <- Hl. by apply IH.
Qed.

Lemma wired_params net net' : params net = params net' → wired net → wired net'.
Proof.
  destruct net as [|l0 rest], net' as [|l0' rest']; try done.
  unfold params. simpl. intros Hp Hw. injection Hp as Hl Hr.
  apply (f_equal length) in Hl. rewrite !length_fmap in Hl.
  rewrite <- Hl. by eapply wired_from_params.
Qed.

Lemma params_forward act inputs net : params (forward act inputs net) = params net.
Proof. by apply forward_frame. Qed.

(** C4.  On a network in which no node has more weights than the previous
    layer has nodes, [feedInputs(inputs)] returns normally and leaves every
    weight and bias as it was.  Afterwards the [cached.output] of input node
    [i] is [inputs[i]] itself, the activation function not applied
    ([undefined] when [inputs] is too short); and every node of a later
    layer has [cached.input = Σ_i previousLayer[i].cached.output *
    weights[i] + bias], summed from the left starting at [0] and read from
    the previous layer as the call leaves it, and
    [cached.output = activationFunction(cached.input)].  Nothing stale
    survives: a network with the same weights, biases and activation
    function but any other cached values ends with the same outputs in
    every node and the same inputs in every node after the input layer.
    (The factors of a product stand in the order of the source, as no
    law of [*] is assumed.) *)
Theorem feedInputs_forward_pass inputs this :
  wired (layers this) →
  ∃ this',
    feedInputs inputs this = (this', Normal tt)
    ∧ params (layers this') = params (layers this)
    ∧ (∀ i node,
         node_at (layers this') 0 i = Some node →
         output (cached node) = nth i inputs undefined)
    ∧ (∀ l i node prev,
         node_at (layers this') (S l) i = Some node →
         layers this' !! l = Some prev →
         input (cached node)
           = add (weightedSum prev (weights node) zero) (bias node)
         ∧ output (cached node)
           = activationFunction (definition this) (input (cached node)))
    ∧ (∀ that,
         params (layers that) = params (layers this) →
         activationFunction (definition that)
           = activationFunction (definition this) →
         ∃ that',
           feedInputs inputs that = (that', Normal tt)
           ∧ activations (layers that') = activations (layers this')
           ∧ netInputs (layers that') = netInputs (layers this')).
Proof.
  intros Hw. eexists. split; [by apply feedInputs_pure|].
  rewrite layers_with_layers. split; [apply params_forward|].
  split; [|split].
  - intros i node. unfold node_at. rewrite forward_lookup_0.
    destruct (layers this !! 0) as [l0|]; [|done]. simpl.
    unfold setInputs. rewrite list_lookup_imap.
    destruct (l0 !! i); [|done]. simpl. by intros [= <-].
  - intros l i node prev. unfold node_at. rewrite forward_lookup_S.
    intros Hn Hprev. rewrite Hprev in Hn.
    destruct (layers this !! S l) as [layer|]; [|done]. simpl in Hn.
    rewrite list_lookup_fmap in Hn.
    destruct (layer !! i) as [n0|]; [|done]. simpl in Hn.
    by injection Hn as <-.
  - intros that Hp Hact.
    eexists. split; [apply feedInputs_pure; by eapply wired_params|].
    rewrite layers_with_layers, Hact. by apply forward_ext.
Qed.

Lemma trained_node_at d inputs expected l i :
  node_at (trained d inputs expected) l i
  = applyPure <$> node_at (proposed d inputs expected) l i.
Proof.
  unfold node_at, trained. rewrite list_lookup_fmap.
  destruct (proposed d inputs expected !! l) as [layer|]; [|done].
  simpl. by rewrite list_lookup_fmap.
Qed.

Lemma proposed_node_at_S d inputs expected k i node :
  node_at (proposed d inputs expected) (S k) i = Some node →
  ∃ node0 prev,
    node_at (forward (activationFunction d) inputs (network d)) (S k) i
      = Some node0
    ∧ forward (activationFunction d) inputs (network d) !! k = Some prev
    ∧ node
      = match proposed d inputs expected !! S (S k) with
        | Some nextLayer =>
            hidNode (updateMultiplier d) (activationFunctionDerivative d)
                    prev nextLayer i node0
        | None =>
            outNode (updateMultiplier d) (errorFunctionDerivative d)
                    (activationFunctionDerivative d) expected prev i node0
        end.
Proof.
  unfold node_at. rewrite proposed_lookup_S.
  destruct (forward _ inputs (network d) !! S k) as [layer|]; [|done].
  destruct (forward _ inputs (network d) !! k) as [prev|]; [|done].
  simpl. intros Hn. exists (default node (layer !! i)), prev.
  destruct (proposed d inputs expected !! S (S k));
    rewrite list_lookup_imap in Hn;
    destruct (layer !! i); simpl in *; by simplify_eq.
Qed.

(** The forward values are those of the forward pass, whatever is
    proposed and applied afterwards. *)
Lemma trained_forward_values {X} (g : cached_t value → X) d inputs expected :
  (∀ v c, g (set_errorWrtIn v c) = g c) →
  (∀ v c, g (set_weightUpdates v c) = g c) →
  (∀ v c, g (set_biasUpdate v c) = g c) →
  fmap (M:=list) (λ node, g (cached node)) <$> trained d inputs expected
  = fmap (λ node, g (cached node))
      <$> forward (activationFunction d) inputs (network d).
Proof.
  intros H1 H2 H3. rewrite trained_frame by done.
  apply proposed_frame. intros upd e p node. unfold proposals. simpl.
  by rewrite H3, H2, H1.
Qed.

Lemma wired_proposals_length d inputs k i node0 prev :
  wired (network d) →
  node_at (forward (activationFunction d) inputs (network d)) (S k) i
    = Some node0 →
  forward (activationFunction d) inputs (network d) !! k = Some prev →
  length (weights node0) ≤ length prev.
Proof.
  intros Hw Hn Hp. unfold node_at in Hn.
  destruct (forward _ inputs (network d) !! S k) as [layer|] eqn:Hl; [|done].
  simpl in Hn.
  pose proof (wired_lookup _ _ _ _ (wired_forward _ inputs _ Hw) Hl Hp) as Hall.
  by apply (Forall_lookup_1 _ _ _ _ Hall Hn).
Qed.

(** *** What a step keeps

    The number of weights of every node, and the values of the forward
    pass. *)

Lemma trained_shape d inputs expected :
  shape (trained d inputs expected) = shape (network d).
Proof.
  unfold shape.
  rewrite (trained_frame (λ node, length (weights node)))
    by (intros node; simpl; apply length_imap).
  rewrite (proposed_frame (λ node, length (weights node))) by done.
  by rewrite (forward_frame (λ node, length (weights node))).
Qed.

Lemma trainingStep_after_feedInputs inputs expected this :
  wired (layers this) →
  2 ≤ length (layers this) →
  ∃ fed this',
    feedInputs inputs this = (fed, Normal tt)
    ∧ trainingStep inputs expected this = (this', Normal tt)
    ∧ this' = with_layers (trained (definition this) inputs expected) this
    ∧ shape (layers this') = shape (layers this)
    ∧ fmap (M:=list) (λ node, (input (cached node), output (cached node)))
        <$> layers this'
      = fmap (λ node, (input (cached node), output (cached node)))
        <$> layers fed.
Proof.
  intros Hw Hlen. eexists _, _.
  split; [by apply feedInputs_pure|].
  split; [by apply trainingStep_pure|].
  split; [done|]. rewrite !layers_with_layers.
  split; [apply trained_shape|].
  by apply (trained_forward_values (λ c, (input c, output c))).
Qed.

(** C1.  [trainingStep(inputs, expected)], on a network of at least
    two layers in which no node has more weights than the previous layer
    has nodes, returns normally; it leaves the network with the layers,
    the nodes and the number of weights per node that it had, and every
    node with the [cached.input] and [cached.output] that
    [feedInputs(inputs)] leaves in it on the network before the call.
    After it, every node [i] of the output layer has
    [cached.errorWrtIn = errorFunctionDerivative(cached.output,
    expected[i]) * activationFunctionDerivative(cached.input)],
    one proposed update for each of its weights, update [j] being
    [-(errorWrtIn * previousLayer[j].cached.output * updateMultiplier)],
    and [cached.biasUpdate = errorWrtIn * 1 * updateMultiplier], with
    the sign opposite to that of the weight updates; this is
    [errorWrtIn * updateMultiplier] where multiplying a product by [1]
    gives the product, as it does for JavaScript numbers. *)
Theorem trainingStep_output_layer inputs expected this :
  wired (layers this) →
  2 ≤ length (layers this) →
  ∃ fed this',
    feedInputs inputs this = (fed, Normal tt)
    ∧ trainingStep inputs expected this = (this', Normal tt)
    ∧ shape (layers this') = shape (layers this)
    ∧ fmap (M:=list) (λ node, (input (cached node), output (cached node)))
        <$> layers this'
      = fmap (λ node, (input (cached node), output (cached node)))
        <$> layers fed
    ∧ ∀ i node,
        node_at (layers this') (length (layers this') - 1) i = Some node →
        let d := definition this in
        let e := mul (errorFunctionDerivative d (output (cached node))
                                                 (nth i expected undefined))
                     (activationFunctionDerivative d (input (cached node))) in
        errorWrtIn (cached node) = e
        ∧ length (weightUpdates (cached node)) = length (weights node)
        ∧ (∀ j, j < length (weights node) →
             ∃ p,
               node_at (layers this') (length (layers this') - 2) j = Some p
               ∧ weightUpdates (cached node) !! j
                 = Some (neg (mul (mul e (output (cached p)))
                                  (updateMultiplier d))))
        ∧ biasUpdate (cached node) = mul (mul e one) (updateMultiplier d)
        ∧ ((∀ x y, mul (mul x y) one = mul x y) →
           biasUpdate (cached node) = mul e (updateMultiplier d)).
Proof.
  intros Hw Hlen.
  destruct (trainingStep_after_feedInputs inputs expected this Hw Hlen)
    as (fed & this' & Hfed & Hrun & -> & Hshape & Hvals).
  exists fed, (with_layers (trained (definition this) inputs expected) this).
  do 4 (split; [done|]). clear fed Hfed Hrun Hshape Hvals.
  rewrite layers_with_layers, length_trained. unfold layers in *.
  set (d := definition this) in *.
  destruct (length (network d)) as [|[|k]] eqn:Hk; [lia..|].
  replace (S (S k) - 1) with (S k) by lia.
  replace (S (S k) - 2) with k by lia.
  intros i node. rewrite trained_node_at.
  destruct (node_at (proposed d inputs expected) (S k) i) as [nodeP|] eqn:HP;
    [|done].
  intros [= <-].
  apply proposed_node_at_S in HP as (node0 & prev & Hn0 & Hprev & ->).
  rewrite (lookup_ge_None_2 (proposed d inputs expected) (S (S k)))
    by (rewrite length_proposed; lia).
  pose proof (wired_proposals_length d inputs k i node0 prev Hw Hn0 Hprev)
    as Hfit.
  simpl. split; [done|]. split; [|split; [|split; [done|]]].
  - rewrite length_zip_with, length_imap. lia.
  - rewrite length_imap. intros j Hj.
    destruct (lookup_lt_is_Some_2 prev j) as [p Hp]; [lia|].
    destruct (lookup_lt_is_Some_2 (weights node0) j) as [w Hwj]; [lia|].
    destruct (node_at_fmap (λ node, output (cached node))
                (forward (activationFunction d) inputs (network d))
                (trained d inputs expected) k j p) as (p' & Hp' & Hout).
    { symmetry. by apply (trained_forward_values output). }
    { unfold node_at. by rewrite Hprev. }
    exists p'. split; [done|].
    rewrite lookup_zip_with, Hwj, <- Hout. simpl. by rewrite Hp.
  - intros Hone. by rewrite Hone.
Qed.

Lemma for_down_order {St} (body : nat → M St unit) hi :
  for_down hi body
  = foldr (λ i k, body i ;; k) (mret tt) (reverse (seq 1 hi)).
Proof.
  induction hi as [|hi IH]; [done|].
  rewrite seq_S, reverse_app. simpl. by rewrite IH.
Qed.

Lemma proposePhase_pure inputs expected this :
  wired (layers this) →
  2 ≤ length (layers this) →
  (proposeOutputLayer inputs expected;; proposeHiddenLayers) this
  = (with_layers (proposed (definition this) inputs expected) this, Normal tt).
Proof.
  intros Hw Hlen.
  pose proof (wired_forward (activationFunction (definition this)) inputs _ Hw) as Hw1.
  pose proof (length_forward (activationFunction (definition this)) inputs (layers this)) as Hlen1.
  destruct (forward _ inputs (layers this)) as [|l0 rest] eqn:Hfwd;
    [simpl in *; lia|].
  destruct rest as [|out pre _] using rev_ind; [simpl in *; lia|].
  simpl in Hw1. apply wired_from_snoc in Hw1 as [Hpre _].
  erewrite bind_run; [|by eapply proposeOutputLayer_pure].
  erewrite proposeHiddenLayers_pure; [|done..].
  rewrite with_layers_twice. unfold proposed. unfold layers in Hfwd.
  rewrite Hfwd. by rewrite backward_snoc.
Qed.

(** C2.  [trainingStep(inputs, expected)] (same networks as in C1)
    returns normally, and leaves the network with the layers, the nodes
    and the number of weights per node that it had, and every node with
    the [cached.input] and [cached.output] that [feedInputs(inputs)]
    leaves in it on the network before the call.  After it,
    every node at position [i] of a hidden layer [l] (any layer but the
    first that has a next layer) has
    [cached.errorWrtIn = (Σ_k nextLayer[k].cached.errorWrtIn *
    nextLayer[k].weights[i]) * activationFunctionDerivative(cached.input)],
    the sum taken from the left starting at [0] over every node of the
    next layer, with the [errorWrtIn] that this call leaves in those nodes
    and the weights they had before the call.  The nodes of the input
    layer keep their [errorWrtIn], [weightUpdates] and [biasUpdate]; and
    the loop over the hidden layers runs its body for the layers
    [length - 2], [length - 3], ..., [1], in this order, the whole call
    being the proposals for the output layer, then those for these
    layers in this order, then the loop that applies the updates. *)
Theorem trainingStep_hidden_layers inputs expected this :
  wired (layers this) →
  2 ≤ length (layers this) →
  ∃ fed this',
    feedInputs inputs this = (fed, Normal tt)
    ∧ trainingStep inputs expected this = (this', Normal tt)
    ∧ shape (layers this') = shape (layers this)
    ∧ fmap (M:=list) (λ node, (input (cached node), output (cached node)))
        <$> layers this'
      = fmap (λ node, (input (cached node), output (cached node)))
        <$> layers fed
    ∧ (∀ l i node next' next0,
         1 ≤ l →
         node_at (layers this') l i = Some node →
         layers this' !! S l = Some next' →
         layers this !! S l = Some next0 →
         ∃ nextLayer,
           (λ k, errorWrtIn (cached k)) <$> nextLayer
             = (λ k, errorWrtIn (cached k)) <$> next'
           ∧ weights <$> nextLayer = weights <$> next0
           ∧ errorWrtIn (cached node)
             = mul (fanIn nextLayer i)
                   (activationFunctionDerivative (definition this)
                      (input (cached node))))
    ∧ (∀ i node,
         node_at (layers this') 0 i = Some node →
         ∃ node0,
           node_at (layers this) 0 i = Some node0
           ∧ errorWrtIn (cached node) = errorWrtIn (cached node0)
           ∧ weightUpdates (cached node) = weightUpdates (cached node0)
           ∧ biasUpdate (cached node) = biasUpdate (cached node0))
    ∧ proposeHiddenLayers this
      = foldr (λ l k, proposeHiddenLayer l;; k) (mret tt)
              (reverse (seq 1 (length (layers this) - 2))) this
    ∧ trainingStep inputs expected this
      = (proposeOutputLayer inputs expected;;
         foldr (λ l k, proposeHiddenLayer l;; k) (mret tt)
               (reverse (seq 1 (length (layers this) - 2)));;
         applyUpdates) this.
Proof.
  intros Hw Hlen.
  destruct (trainingStep_after_feedInputs inputs expected this Hw Hlen)
    as (fed & this' & Hfed & Hrun & -> & Hshape & Hvals).
  exists fed, (with_layers (trained (definition this) inputs expected) this).
  do 4 (split; [done|]). clear fed Hfed Hrun Hshape Hvals.
  rewrite layers_with_layers. unfold layers in *.
  set (d := definition this) in *. split; [|split; [|split]].
  - intros l i node next' next0 Hl Hnode Hnext' Hnext0.
    destruct l as [|k]; [lia|]. rewrite trained_node_at in Hnode.
    destruct (node_at (proposed d inputs expected) (S k) i) as [nodeP|] eqn:HP;
      [|done].
    injection Hnode as <-.
    apply proposed_node_at_S in HP as (node0 & prev & Hn0 & Hprev & ->).
    unfold trained in Hnext'. rewrite list_lookup_fmap in Hnext'.
    destruct (proposed d inputs expected !! S (S k)) as [nextLayer|] eqn:HnP;
      [|done].
    injection Hnext' as <-. exists nextLayer. split; [|split; [|done]].
    + rewrite <- list_fmap_compose. by apply list_fmap_ext.
    + pose proof (proposed_frame weights d inputs expected) as HwP.
      rewrite (forward_frame weights) in HwP by done.
      apply (f_equal (λ x, x !! S (S k))) in HwP; [|done].
      rewrite !list_lookup_fmap, HnP, Hnext0 in HwP. by injection HwP.
  - intros i node. rewrite trained_node_at. unfold node_at.
    rewrite proposed_lookup_0, forward_lookup_0.
    destruct (network d !! 0) as [l0|]; [|done]. simpl.
    unfold setInputs. rewrite list_lookup_imap.
    destruct (l0 !! i) as [node0|]; [|done]. simpl.
    intros [= <-]. by exists node0.
  - unfold proposeHiddenLayers at 1, mbind at 1, M_bind, get.
    by rewrite for_down_order.
  - pose proof (length_forward (activationFunction d) inputs (network d))
      as Hlen1.
    destruct (forward (activationFunction d) inputs (network d))
      as [|l0 rest] eqn:Hfwd; [simpl in *; lia|].
    destruct rest as [|out pre _] using rev_ind; [simpl in *; lia|].
    unfold trainingStep.
    rewrite !(bind_run (proposeOutputLayer inputs expected) _ this _ tt
                (proposeOutputLayer_pure inputs expected this l0 pre out Hw Hfwd)).
    match goal with |- _ ?s = _ => set (s1 := s) end.
    assert (proposeHiddenLayers s1
            = foldr (λ l k, proposeHiddenLayer l;; k) (mret tt)
                (reverse (seq 1 (length (network d) - 2))) s1) as Hloop.
    { unfold proposeHiddenLayers at 1, mbind at 1, M_bind, get.
      rewrite for_down_order. unfold s1. rewrite layers_with_layers.
      rewrite <- Hlen1. simpl. by rewrite !length_app. }
    unfold mbind at 1 3, M_bind. by rewrite Hloop.
Qed.

Lemma proposed_hidden_errorWrtIn d inputs expected l i node nextLayer :
  1 ≤ l →
  node_at (proposed d inputs expected) l i = Some node →
  proposed d inputs expected !! S l = Some nextLayer →
  errorWrtIn (cached node)
  = mul (fanIn nextLayer i)
        (activationFunctionDerivative d (input (cached node))).
Proof.
  intros Hl Hnode Hnext. destruct l as [|k]; [lia|].
  apply proposed_node_at_S in Hnode as (node0 & prev & Hn0 & Hprev & ->).
  by rewrite Hnext.
Qed.

(** C3.  [trainingStep] runs in two phases (same networks as in C1).
    The first, the forward pass and the proposals for the output layer
    and then the hidden layers, ends in a state [mid] in which every node
    has the weights and bias it had before the call; the sums over the
    next layer that the hidden layers' [errorWrtIn] hold are taken over
    those weights.  Only then the last loop replaces, in every node of
    every layer, [weights[j]] by [weights[j] + cached.weightUpdates[j]],
    and changes nothing else. *)
Theorem trainingStep_two_phase inputs expected this :
  wired (layers this) →
  2 ≤ length (layers this) →
  ∃ mid this',
    (proposeOutputLayer inputs expected;; proposeHiddenLayers) this
      = (mid, Normal tt)
    ∧ applyUpdates mid = (this', Normal tt)
    ∧ trainingStep inputs expected this = (this', Normal tt)
    ∧ params (layers mid) = params (layers this)
    ∧ (∀ l i node nextLayer,
         1 ≤ l →
         node_at (layers mid) l i = Some node →
         layers mid !! S l = Some nextLayer →
         errorWrtIn (cached node)
         = mul (fanIn nextLayer i)
               (activationFunctionDerivative (definition this)
                  (input (cached node))))
    ∧ (∀ l i node,
         node_at (layers mid) l i = Some node →
         ∃ node',
           node_at (layers this') l i = Some node'
           ∧ cached node' = cached node
           ∧ bias node' = bias node
           ∧ length (weights node') = length (weights node)
           ∧ ∀ j w,
               weights node !! j = Some w →
               weights node' !! j
               = Some (add w (nth j (weightUpdates (cached node)) undefined))).
Proof.
  intros Hw Hlen. eexists _, _.
  split; [by apply proposePhase_pure|].
  split; [by apply applyUpdates_pure|].
  rewrite with_layers_twice, !layers_with_layers.
  split; [by apply trainingStep_pure|]. split; [|split].
  - unfold params. rewrite (proposed_frame (λ node, (weights node, bias node))) by done.
    by apply forward_frame.
  - intros l i node nextLayer. apply proposed_hidden_errorWrtIn.
  - intros l i node Hnode. exists (applyPure node).
    split; [|split; [done|split; [done|split]]].
    + unfold node_at in *. rewrite list_lookup_fmap.
      destruct (proposed _ _ _ !! l) as [layer|]; [|done]. simpl in *.
      by rewrite list_lookup_fmap, Hnode.
    + simpl. by rewrite length_imap.
    + intros j w Hj. simpl. by rewrite list_lookup_imap, Hj.
Qed.

Lemma trainingStep_preserves_bias inputs expected this :
  fmap (M:=list) bias <$> layers (trainingStep inputs expected this).1
  = fmap bias <$> layers this.
Proof.
  unfold trainingStep.
  apply (bind_preserves (λ this, fmap (M:=list) bias <$> layers this)).
  { intros s. by apply proposeOutputLayer_preserves. }
  intros _ s.
  apply (bind_preserves (λ this, fmap (M:=list) bias <$> layers this)).
  { intros s1. by apply proposeHiddenLayers_preserves. }
  intros _ s1. rewrite applyUpdates_pure. cbn [fst]. rewrite layers_with_layers.
  rewrite <- list_fmap_compose. apply list_fmap_ext. intros i l _. simpl.
  rewrite <- list_fmap_compose. by apply list_fmap_ext.
Qed.

(** C5.  [trainingStep(inputs, expected)] leaves the bias of every node
    as it was, on every network and whether it returns or throws; the
    last loop changes no bias and no cached value, only weights; and where
    the call returns normally (same networks as in C1), every node after
    the input layer holds [cached.biasUpdate = cached.errorWrtIn * 1 *
    updateMultiplier], computed and stored but never added to [bias]. *)
Theorem trainingStep_bias_unchanged inputs expected this :
  fmap (M:=list) bias <$> layers (trainingStep inputs expected this).1
    = fmap bias <$> layers this
  ∧ (∀ mid,
       fmap (M:=list) (λ node, (bias node, cached node))
         <$> layers (applyUpdates mid).1
       = fmap (λ node, (bias node, cached node)) <$> layers mid)
  ∧ (wired (layers this) →
     2 ≤ length (layers this) →
     ∃ this',
       trainingStep inputs expected this = (this', Normal tt)
       ∧ ∀ l i node,
           node_at (layers this') (S l) i = Some node →
           biasUpdate (cached node)
           = mul (mul (errorWrtIn (cached node)) one)
                 (updateMultiplier (definition this))).
Proof.
  split; [apply trainingStep_preserves_bias|]. split.
  - intros mid. rewrite applyUpdates_pure. cbn [fst]. rewrite layers_with_layers.
    rewrite <- list_fmap_compose. apply list_fmap_ext. intros i l _. simpl.
    rewrite <- list_fmap_compose. by apply list_fmap_ext.
  - intros Hw Hlen. eexists. split; [by apply trainingStep_pure|].
    rewrite layers_with_layers. intros l i node.
    rewrite trained_node_at.
    destruct (node_at (proposed _ inputs expected) (S l) i) as [nodeP|] eqn:HP;
      [|done].
    intros [= <-].
    apply proposed_node_at_S in HP as (node0 & prev & Hn0 & Hprev & ->).
    by destruct (proposed _ inputs expected !! S (S l)).
Qed.

Lemma imap_nth_zip_with {A B C} (f : A → B → C) (d : B) (l : list A) (k : list B) :
  length k = length l →
  imap (λ i a, f a (nth i k d)) l = zip_with f l k.
Proof.
  revert k. induction l as [|a l IH]; intros [|b k] Hlen; try done.
  simpl in *. f_equal. apply IH. lia.
Qed.

(** C7.  For [expected] of the length of the output layer,
    [totalError(expected)] returns
    [Σ_i errorFunction(outputLayer[i].cached.output, expected[i])], summed
    from the left starting at [0] in the order of the output nodes, and
    the network is afterwards as it was before: nothing is mutated and no
    forward pass is run. *)
Theorem totalError_sum expected this out :
  last (layers this) = Some out →
  length expected = length out →
  totalError expected this
  = (this,
     Normal (fold_left add
               (zip_with (λ node e,
                            errorFunction (definition this)
                              (output (cached node)) e) out expected)
               zero)).
Proof.
  intros Hout Hlen. rewrite (totalError_run _ _ out Hout).
  by rewrite <- (imap_nth_zip_with _ undefined).
Qed.

Lemma imap_outputs_ext {X} (f : nat → value → X) layer layer' :
  (λ node, output (cached node)) <$> layer
    = (λ node, output (cached node)) <$> layer' →
  imap (λ i node, f i (output (cached node))) layer
  = imap (λ i node, f i (output (cached node))) layer'.
Proof.
  intros Heq. apply list_eq. intros i.
  apply (f_equal (λ x, x !! i)) in Heq.
  rewrite !list_lookup_fmap in Heq. rewrite !list_lookup_imap.
  destruct (layer !! i), (layer' !! i); simpl in *; congruence.
Qed.

(** C10.  Right after [trainingStep(inputs, expected)] (same networks as
    in C1) every node holds the [cached.input] and [cached.output] that
    [feedInputs(inputs)] alone leaves in it, which are those of the
    weights before the step; [outputs()] and [totalError(e)] therefore
    return after the step what they return after [feedInputs(inputs)] on
    the network before the step. *)
Theorem trainingStep_keeps_forward_values inputs expected this :
  wired (layers this) →
  2 ≤ length (layers this) →
  ∃ fed this' os,
    feedInputs inputs this = (fed, Normal tt)
    ∧ trainingStep inputs expected this = (this', Normal tt)
    ∧ params (layers fed) = params (layers this)
    ∧ fmap (M:=list) (λ node, (input (cached node), output (cached node)))
        <$> layers this'
      = fmap (λ node, (input (cached node), output (cached node)))
        <$> layers fed
    ∧ outputs fed = (fed, Normal os)
    ∧ outputs this' = (this', Normal os)
    ∧ ∀ e, ∃ err,
        totalError e fed = (fed, Normal err)
        ∧ totalError e this' = (this', Normal err).
Proof.
  intros Hw Hlen.
  set (d := definition this).
  set (F := forward (activationFunction d) inputs (network d)).
  pose proof (trained_forward_values (λ c, (input c, output c)) d inputs expected)
    as Hvals. simpl in Hvals.
  specialize (Hvals (λ _ _, eq_refl) (λ _ _, eq_refl) (λ _ _, eq_refl)).
  fold F in Hvals.
  assert (∃ outF, last F = Some outF) as [outF HoutF].
  { destruct (last F) eqn:E; [by eexists|]. apply last_None in E.
    apply (f_equal length) in E. unfold F, d in E.
    rewrite length_forward in E. unfold layers in Hlen. simpl in E. lia. }
  assert (∃ outT, last (trained d inputs expected) = Some outT
                   ∧ (λ node, output (cached node)) <$> outT
                     = (λ node, output (cached node)) <$> outF)
    as (outT & HoutT & Houts).
  { apply (f_equal last) in Hvals. rewrite !fmap_last, HoutF in Hvals.
    destruct (last (trained d inputs expected)) as [outT|]; [|done].
    exists outT. split; [done|]. simpl in Hvals. injection Hvals as Hvals.
    apply (f_equal (fmap snd)) in Hvals.
    by rewrite <- !list_fmap_compose in Hvals. }
  exists (with_layers F this), (with_layers (trained d inputs expected) this),
    ((λ node, output (cached node)) <$> outF).
  split; [by apply feedInputs_pure|].
  split; [by apply trainingStep_pure|].
  rewrite !layers_with_layers.
  split; [apply params_forward|]. split; [done|].
  split; [by apply outputs_run|].
  split; [rewrite <- Houts; by apply outputs_run|].
  intros e. eexists. split; [by apply totalError_run|].
  rewrite (totalError_run e _ outT) by done. do 3 f_equal.
  by apply (imap_outputs_ext (λ i o, errorFunction d o (nth i e undefined))).
Qed.

Lemma nth_app_undefined (l : list value) k i :
  nth i (l ++ replicate k undefined) undefined = nth i l undefined.
Proof.
  destruct (decide (i < length l)) as [Hi|Hi].
  - by apply app_nth1.
  - rewrite app_nth2 by lia. rewrite (nth_overflow l) by lia.
    destruct (decide (i - length l < k)).
    + rewrite nth_lookup, lookup_replicate_2; done.
    + apply nth_overflow. rewrite length_replicate. lia.
Qed.

Lemma forward_inputs_ext act inputs inputs' net :
  (∀ layer0 i, net !! 0 = Some layer0 → i < length layer0 →
     nth i inputs undefined = nth i inputs' undefined) →
  forward act inputs net = forward act inputs' net.
Proof.
  intros Hin. destruct net as [|l0 rest]; [done|]. simpl.
  assert (setInputs inputs l0 = setInputs inputs' l0) as ->; [|done].
  unfold setInputs. apply list_eq. intros i. rewrite !list_lookup_imap.
  destruct (l0 !! i) eqn:Hi; [|done]. simpl.
  rewrite (Hin l0 i); [done..|]. by eapply lookup_lt_Some.
Qed.

Lemma backward_expected_ext um errD actD expected expected' prev rest :
  (∀ out i, last rest = Some out → i < length out →
     nth i expected undefined = nth i expected' undefined) →
  backward um errD actD expected prev rest
  = backward um errD actD expected' prev rest.
Proof.
  revert prev. induction rest as [|l rest IH]; intros prev Hex; [done|].
  simpl. destruct rest as [|l' rest].
  - simpl. f_equal. apply list_eq. intros i. rewrite !list_lookup_imap.
    destruct (l !! i) eqn:Hi; [|done]. simpl. unfold outNode.
    rewrite (Hex l i); [reflexivity|reflexivity|by eapply lookup_lt_Some].
  - rewrite IH.
    + pose proof (length_backward um errD actD expected' l (l' :: rest)) as Hlen.
      by destruct (backward um errD actD expected' l (l' :: rest)).
    + intros out i Hout. apply Hex. by rewrite last_cons_cons.
Qed.

Lemma trained_expected_ext d inputs expected expected' :
  (∀ out i, last (network d) = Some out → i < length out →
     nth i expected undefined = nth i expected' undefined) →
  trained d inputs expected = trained d inputs expected'.
Proof.
  intros Hex. unfold trained, proposed.
  pose proof (forward_frame (λ _, ()) (activationFunction d) inputs (network d)
                (λ _ _, eq_refl) (λ _ _, eq_refl)) as Hshape.
  destruct (forward _ inputs (network d)) as [|l0 rest] eqn:Hf; [done|].
  rewrite (backward_expected_ext _ _ _ expected expected'); [done|].
  intros out i Hout Hi.
  destruct (network d) as [|n0 nrest] eqn:Hn; [done|].
  destruct (last (n0 :: nrest)) as [out0|] eqn:Hout0;
    [|by apply last_None in Hout0].
  apply (Hex out0); [done|].
  assert (length out = length out0) as <-; [|done].
  assert (last (l0 :: rest) = Some out) as Hout'.
  { destruct rest; [done|]. by rewrite last_cons_cons. }
  apply (f_equal last) in Hshape. rewrite !fmap_last, Hout', Hout0 in Hshape.
  simpl in Hshape. injection Hshape as Hshape.
  apply (f_equal length) in Hshape. by rewrite !length_fmap in Hshape.
Qed.

Lemma feedInputs_input_layer inputs this :
  wired (layers this) →
  ∃ this',
    feedInputs inputs this = (this', Normal tt)
    ∧ ∀ i node,
        node_at (layers this') 0 i = Some node →
        output (cached node) = nth i inputs undefined.
Proof.
  intros Hw. eexists. split; [by apply feedInputs_pure|].
  rewrite layers_with_layers.
  intros i node. unfold node_at. rewrite forward_lookup_0.
  destruct (layers this !! 0) as [l0|]; [|done]. simpl.
  unfold setInputs. rewrite list_lookup_imap.
  destruct (l0 !! i); [|done]. simpl. by intros [= <-].
Qed.

(** C6, as amended.  A vector of the wrong length makes no call fail (on
    the networks of C1): [feedInputs(inputs)] and
    [trainingStep(inputs, expected)] return normally for [inputs] and
    [expected] of any length, and mutate the nodes as usual.  A missing
    entry is read as [undefined]: input node [i] gets [inputs[i]], which
    is [undefined] past the end, and padding either vector with
    [undefined] changes no call.  Surplus entries are ignored: appending
    to [inputs] at least as long as the input layer, or to [expected] at
    least as long as the output layer, changes no call. *)
Theorem shape_mismatch_tolerated inputs expected this :
  wired (layers this) →
  2 ≤ length (layers this) →
  (∃ this',
     feedInputs inputs this = (this', Normal tt)
     ∧ ∀ i node,
         node_at (layers this') 0 i = Some node →
         output (cached node) = nth i inputs undefined)
  ∧ (∃ this', trainingStep inputs expected this = (this', Normal tt))
  ∧ (∀ k,
       feedInputs (inputs ++ replicate k undefined) this
         = feedInputs inputs this
       ∧ trainingStep inputs (expected ++ replicate k undefined) this
         = trainingStep inputs expected this)
  ∧ (∀ extra layer0,
       layers this !! 0 = Some layer0 →
       length layer0 ≤ length inputs →
       feedInputs (inputs ++ extra) this = feedInputs inputs this)
  ∧ (∀ extra out,
       last (layers this) = Some out →
       length out ≤ length expected →
       trainingStep inputs (expected ++ extra) this
       = trainingStep inputs expected this).
Proof.
  intros Hw Hlen. split; [|split; [|split; [|split]]].
  - by apply feedInputs_input_layer.
  - eexists. by apply trainingStep_pure.
  - intros k. split.
    + rewrite !feedInputs_pure by done. do 2 f_equal.
      apply forward_inputs_ext. intros _ i _ _. apply nth_app_undefined.
    + rewrite !trainingStep_pure by done. do 2 f_equal.
      apply trained_expected_ext. intros _ i _ _. apply nth_app_undefined.
  - intros extra layer0 Hl0 Hfit. rewrite !feedInputs_pure by done.
    do 2 f_equal. apply forward_inputs_ext. intros l0 i Hl0' Hi.
    apply app_nth1. rewrite Hl0 in Hl0'. injection Hl0' as <-. lia.
  - intros extra out Hout Hfit. rewrite !trainingStep_pure by done.
    do 2 f_equal. apply trained_expected_ext. intros out' i Hout' Hi.
    apply app_nth1. unfold layers in Hout. rewrite Hout in Hout'.
    injection Hout' as <-. lia.
Qed.

(** C8, as amended.  [new Network(definition)] never fails and checks
    nothing: whatever the topology, it returns the object that holds the
    definition as given.  The topology is first met by [feedInputs], which
    returns normally exactly when there is at least one layer and no node
    has more weights than the previous layer has nodes, and throws
    otherwise; a network of a single layer, or a node with fewer weights
    than the previous layer has nodes, is accepted there too. *)
Theorem Network_accepts_any_definition (d : definition_t value) :
  ∃ this,
    Network d = Normal this
    ∧ definition this = d
    ∧ ∀ inputs, (feedInputs inputs this).2 = Normal tt ↔ wired (network d).
Proof.
  eexists. split; [done|]. split; [done|].
  intros inputs. apply feedInputs_completes_iff.
Qed.
End Claims.

(** ** Further properties of the methods *)

Section Further.
Context {value : Type} {ops : JsOps value}.
Implicit Types (this that : network_t value) (net : list (list (node_t value))).
Implicit Types (layer prev : list (node_t value)).
Implicit Types (pre post rest : list (list (node_t value))).
Implicit Types (node : node_t value).

Local Arguments output_at : simpl never.

(** *** The output layer of a network of a single layer *)

Lemma proposeOutputNode_no_weights this expected previousLayer i node :
  weights node = [] →
  proposeOutputNode this expected previousLayer i node
  = (outNode (updateMultiplier (definition this))
             (errorFunctionDerivative (definition this))
             (activationFunctionDerivative (definition this))
             expected [] i node, Normal tt).
Proof.
  destruct node as [ws b c]. simpl. intros ->. done.
Qed.

Lemma proposeOutputNode_no_layer this expected i node :
  weights node ≠ [] →
  (proposeOutputNode this expected None i node).2 = Throw TypeError.
Proof.
  intros Hw. unfold proposeOutputNode, mbind, M_bind, get, lift, map_js.
  simpl. by destruct (weights node).
Qed.

Lemma on_layer_result (i : nat) (m : M (list (node_t value)) unit) this layer :
  layers this !! i = Some layer →
  (on_layer (Z.of_nat i) m this).2 = (m layer).2.
Proof.
  intros Hl. unfold on_layer. rewrite idx_of_nat, Hl. by destruct (m layer).
Qed.

Lemma length_nil_iff {A} (l : list A) : length l = 0 ↔ l = [].
Proof. by destruct l. Qed.

Lemma trainingStep_single_layer inputs expected this layer0 :
  layers this = [layer0] →
  (trainingStep inputs expected this).2 = Normal tt
  ↔ Forall (λ node, weights node = []) layer0.
Proof.
  intros Hnet.
  assert (wired (layers this)) as Hw by by rewrite Hnet.
  set (fed := setInputs inputs layer0).
  assert (feedInputs inputs this = (with_layers [fed] this, Normal tt)) as Hfeed.
  { rewrite feedInputs_pure by done. by rewrite Hnet. }
  set (this1 := with_layers [fed] this) in *.
  assert (last (layers this1) = Some fed) as Hlast by done.
  assert (proposeOutputLayer inputs expected this
          = on_layer 0 (forEach (proposeOutputNode this1 expected None)) this1)
    as Hout.
  { unfold proposeOutputLayer.
    erewrite bind_run; [|done].
    erewrite bind_run; [|by apply totalError_run].
    erewrite bind_run; [|by apply outputs_run].
    erewrite bind_run; [|done]. done. }
  assert (weights <$> fed = weights <$> layer0) as Hws.
  { unfold fed, setInputs. apply list_eq. intros i.
    rewrite !list_lookup_fmap, list_lookup_imap. by destruct (layer0 !! i). }
  assert (Forall (λ node, weights node = []) fed
          ↔ Forall (λ node, weights node = []) layer0) as Hfed.
  { rewrite <- !(Forall_fmap weights (λ ws : list value, ws = [])).
    by rewrite Hws. }
  rewrite <- Hfed. unfold trainingStep. split.
  - intros Hrun.
    destruct (decide (Forall (λ node, length (weights node) = 0) fed))
      as [Hall|Hbad].
    { eapply Forall_impl; [exact Hall|]. intros node. apply length_nil_iff. }
    exfalso. rewrite bind_throws with (e := TypeError) in Hrun; [done|].
    rewrite Hout. rewrite (on_layer_result 0 _ this1 fed) by done.
    apply (forEach_from_throw _ (λ node, length (weights node) = 0));
      [| |apply _|done].
    + intros i node Hn%length_nil_iff.
      by rewrite proposeOutputNode_no_weights.
    + intros i node Hn. apply proposeOutputNode_no_layer.
      by rewrite <- length_nil_iff.
  - intros Hall. erewrite bind_run; last first.
    { rewrite Hout. apply (on_layer_run 0 _ this1 fed); [done|].
      apply forEach_pure. intros i node Hn.
      apply proposeOutputNode_no_weights.
      by apply (Forall_lookup_1 _ _ _ _ Hall Hn). }
    erewrite bind_run; [|done].
    by rewrite applyUpdates_pure.
Qed.

Lemma trainingStep_unwired inputs expected this :
  ¬ wired (layers this) →
  (trainingStep inputs expected this).2 = Throw TypeError.
Proof.
  intros Hw. unfold trainingStep, proposeOutputLayer.
  do 2 apply bind_throws.
  destruct (feedInputs inputs this) as [s [[]|[]]] eqn:Hfeed; [|done].
  destruct Hw. apply (feedInputs_completes_iff inputs). by rewrite Hfeed.
Qed.

(** X1.  [trainingStep(inputs, expected)] returns normally exactly when
    the network has at least one layer, no node has more weights than the
    previous layer has nodes, and, should there be a single layer, none of
    its nodes has a weight; otherwise it throws [TypeError].  (With a
    single layer [previousLayer] is [network[-1]], that is [undefined],
    and it is read once for every weight of a node.)  The vectors
    [inputs] and [expected] play no part in this. *)
Theorem trainingStep_completes_iff inputs expected this :
  (trainingStep inputs expected this).2 = Normal tt
  ↔ wired (layers this)
    ∧ ∀ layer0, layers this = [layer0] →
        Forall (λ node, weights node = []) layer0.
Proof.
  destruct (decide (wired (layers this))) as [Hw|Hw]; last first.
  { split; [|by intros [? _]]. intros Hrun. exfalso.
    by rewrite trainingStep_unwired in Hrun. }
  destruct (layers this) as [|layer0 [|layer1 rest]] eqn:Hnet; [done| |].
  - rewrite (trainingStep_single_layer _ _ _ layer0 Hnet). split.
    + intros Hall. split; [done|]. by intros ? [= <-].
    + intros [_ Hall]. by apply Hall.
  - split.
    + intros _. split; [done|]. by intros ? [=].
    + intros _. rewrite trainingStep_pure; [done|by rewrite Hnet|].
      rewrite Hnet. simpl. lia.
Qed.


(** *** Reading the outputs *)

(** X2.  [outputs()] and [totalError(expected)] never change the
    network, whether they return or throw; each throws [TypeError] exactly
    when the network has no layer, and [outputs()] otherwise returns the
    [cached.output] of every node of the last layer, in order. *)
Theorem outputs_totalError_read_only expected this :
  (outputs this).1 = this
  ∧ (totalError expected this).1 = this
  ∧ ((outputs this).2 = Throw TypeError ↔ layers this = [])
  ∧ ((totalError expected this).2 = Throw TypeError ↔ layers this = [])
  ∧ (∀ out, last (layers this) = Some out →
       (outputs this).2 = Normal ((λ node, output (cached node)) <$> out)).
Proof.
  destruct (last (layers this)) as [out|] eqn:Hlast.
  - rewrite (outputs_run this out), (totalError_run expected this out) by done.
    cbn [fst snd].
    assert (layers this ≠ []) as Hne by (intros E; by rewrite E in Hlast).
    repeat split; try done. by intros ? [= <-].
  - apply last_None in Hlast.
    unfold outputs, totalError, mbind, M_bind, get. rewrite Hlast. simpl.
    repeat split; done.
Qed.

(** *** What a call that throws has changed *)

Lemma trainingStep_throws_before_apply inputs expected this e :
  (trainingStep inputs expected this).2 = Throw e →
  trainingStep inputs expected this
  = (proposeOutputLayer inputs expected;; proposeHiddenLayers) this.
Proof.
  unfold trainingStep, mbind, M_bind.
  destruct (proposeOutputLayer inputs expected this) as [s1 [[]|e1]]; [|done].
  destruct (proposeHiddenLayers s1) as [s2 [[]|e2]]; [|done].
  by rewrite applyUpdates_pure.
Qed.

Lemma trainingStep_throw_params inputs expected this e :
  (trainingStep inputs expected this).2 = Throw e →
  params (layers (trainingStep inputs expected this).1) = params (layers this).
Proof.
  intros He. rewrite (trainingStep_throws_before_apply _ _ _ e He).
  apply (bind_preserves (λ this, params (layers this))).
  - intros s. by apply proposeOutputLayer_preserves.
  - intros _ s. by apply proposeHiddenLayers_preserves.
Qed.

(** X3.  [feedInputs(inputs)] never changes a weight or a bias, whether
    it returns or throws; and a [trainingStep(inputs, expected)] that
    throws has changed no weight and no bias either: it throws before the
    loop that applies the updates is reached. *)
Theorem throw_keeps_weights inputs expected this :
  params (layers (feedInputs inputs this).1) = params (layers this)
  ∧ ∀ e, (trainingStep inputs expected this).2 = Throw e →
      params (layers (trainingStep inputs expected this).1)
      = params (layers this).
Proof.
  split.
  - by apply feedInputs_preserves.
  - intros e He. by apply (trainingStep_throw_params _ _ _ e).
Qed.

(** *** The shape of the network *)

Lemma trainingStep_preserves_shape inputs expected this :
  shape (layers (trainingStep inputs expected this).1) = shape (layers this).
Proof.
  unfold trainingStep, shape.
  apply (bind_preserves
           (λ this, fmap (M:=list) (λ node, length (weights node)) <$> layers this)).
  { intros s. by apply proposeOutputLayer_preserves. }
  intros _ s.
  apply (bind_preserves
           (λ this, fmap (M:=list) (λ node, length (weights node)) <$> layers this)).
  { intros s1. by apply proposeHiddenLayers_preserves. }
  intros _ s1. rewrite applyUpdates_pure. cbn [fst]. rewrite layers_with_layers.
  rewrite <- list_fmap_compose. apply list_fmap_ext. intros i l _. simpl.
  rewrite <- list_fmap_compose. apply list_fmap_ext. intros j node _. simpl.
  by rewrite length_imap.
Qed.

Lemma wired_from_shape n rest rest' :
  shape rest = shape rest' → wired_from n rest → wired_from n rest'.
Proof.
  revert n rest'. induction rest as [|l rest IH]; intros n rest' Hp Hw;
    destruct rest' as [|l' rest']; try done.
  unfold shape in Hp. simpl in Hp. injection Hp as Hl Hr.
  destruct Hw as [Hw1 Hw2]. split.
  - rewrite <- (Forall_fmap (λ node, length (weights node)) (λ k, k ≤ n)).
    rewrite <- Hl. by rewrite Forall_fmap.
  - apply (f_equal length) in Hl. rewrite !length_fmap in Hl.
    rewrite <- Hl. by apply IH.
Qed.

Lemma wired_shape net net' : shape net = shape net' → wired net → wired net'.
Proof.
  destruct net as [|l0 rest], net' as [|l0' rest']; try done.
  unfold shape. simpl. intros Hp Hw. injection Hp as Hl Hr.
  apply (f_equal length) in Hl. rewrite !length_fmap in Hl.
  rewrite <- Hl. by eapply wired_from_shape.
Qed.


Lemma on_layer_settings i (m : M (list (node_t value)) unit) this :
  settings (on_layer i m this).1 = settings this.
Proof.
  unfold on_layer. destruct (idx (layers this) i); [|done].
  by destruct (m l).
Qed.

Lemma on_network_settings (m : M (list (list (node_t value))) unit) this :
  settings (on_network m this).1 = settings this.
Proof. unfold on_network. by destruct (m (layers this)). Qed.

Ltac keep_settings :=
  repeat first
    [ done
    | apply on_layer_settings
    | apply on_network_settings
    | apply (bind_preserves settings); intros
    | apply (for_up_preserves settings); intros
    | apply (for_down_preserves settings); intros
    | match goal with |- context [deref ?o] => destruct o end
    | match goal with |- context [lift ?c] => destruct c end ].

Lemma feedInputs_settings inputs this :
  settings (feedInputs inputs this).1 = settings this.
Proof. unfold feedInputs. keep_settings. Qed.

Lemma trainingStep_settings inputs expected this :
  settings (trainingStep inputs expected this).1 = settings this.
Proof.
  unfold trainingStep, proposeOutputLayer, proposeHiddenLayers,
    proposeHiddenLayer, applyUpdates, outputs, totalError.
  keep_settings; apply feedInputs_settings.
Qed.

(** X4.  Whether it returns or throws, [trainingStep(inputs, expected)]
    leaves the number of layers, the number of nodes of every layer and
    the number of weights of every node as they were, so that a network
    that [feedInputs] accepts stays one; and it leaves
    [updateMultiplier] and the four functions of the definition as they
    were. *)
Theorem trainingStep_keeps_shape inputs expected this :
  let this' := (trainingStep inputs expected this).1 in
  shape (layers this') = shape (layers this)
  ∧ (wired (layers this') ↔ wired (layers this))
  ∧ settings this' = settings this.
Proof.
  pose proof (trainingStep_preserves_shape inputs expected this) as Hs.
  split; [done|]. split; [|apply trainingStep_settings].
  split; by apply wired_shape.
Qed.

(** *** Feeding the same inputs twice *)

Lemma fwdNode_twice act prev node :
  fwdNode act prev (fwdNode act prev node) = fwdNode act prev node.
Proof. by destruct node as [ws b []]. Qed.

Lemma forward_from_twice act prev rest :
  forward_from act prev (forward_from act prev rest)
  = forward_from act prev rest.
Proof.
  revert prev. induction rest as [|l rest IH]; intros prev; [done|].
  simpl. rewrite <- list_fmap_compose.
  erewrite (list_fmap_ext (fwdNode act prev ∘ fwdNode act prev));
    [|intros i x _; apply fwdNode_twice].
  by rewrite IH.
Qed.

Lemma setInputs_twice inputs layer :
  setInputs inputs (setInputs inputs layer) = setInputs inputs layer.
Proof.
  unfold setInputs. apply list_eq. intros i. rewrite !list_lookup_imap.
  by destruct (layer !! i) as [[ws b []]|].
Qed.

Lemma forward_twice act inputs net :
  forward act inputs (forward act inputs net) = forward act inputs net.
Proof.
  destruct net as [|l0 rest]; [done|]. simpl.
  by rewrite setInputs_twice, forward_from_twice.
Qed.

Lemma feedInputs_fed inputs this fed :
  feedInputs inputs this = (fed, Normal tt) →
  feedInputs inputs fed = (fed, Normal tt).
Proof.
  intros Hrun.
  assert (wired (layers this)) as Hw.
  { apply (feedInputs_completes_iff inputs). by rewrite Hrun. }
  rewrite feedInputs_pure in Hrun by done. injection Hrun as <-.
  rewrite feedInputs_pure by (rewrite layers_with_layers; by apply wired_forward).
  rewrite layers_with_layers, with_layers_twice. simpl.
  by rewrite forward_twice.
Qed.

Lemma bind_same {St A B} (m : M St A) (k : A → M St B) s1 s2 :
  m s1 = m s2 → (m ≫= k) s1 = (m ≫= k) s2.
Proof. intros Hm. unfold mbind, M_bind. by rewrite Hm. Qed.

Lemma bind_throw_run {St A B} (m : M St A) (k : A → M St B) s s' e :
  m s = (s', Throw e) → (m ≫= k) s = (s', Throw e).
Proof. intros Hm. unfold mbind, M_bind. by rewrite Hm. Qed.

(** X5.  Calling [feedInputs(inputs)] twice in a row is the same as
    calling it once, and calling it just before
    [trainingStep(inputs, expected)] changes nothing, as [trainingStep]
    starts with the same forward pass: result and network object are the
    same, on every network, also where the calls throw. *)
Theorem feedInputs_idempotent inputs expected this :
  (feedInputs inputs;; feedInputs inputs) this = feedInputs inputs this
  ∧ (feedInputs inputs;; trainingStep inputs expected) this
    = trainingStep inputs expected this.
Proof.
  destruct (feedInputs inputs this) as [fed [[]|e]] eqn:Hrun.
  - pose proof (feedInputs_fed _ _ _ Hrun) as Hfed. split.
    + by erewrite bind_run.
    + erewrite bind_run; [|done].
      unfold trainingStep, proposeOutputLayer.
      do 2 apply bind_same. by rewrite Hfed.
  - split; [by apply bind_throw_run|].
    rewrite (bind_throw_run _ _ _ _ _ Hrun).
    unfold trainingStep, proposeOutputLayer. symmetry.
    by do 2 apply bind_throw_run.
Qed.


(** *** The run of example.js *)

Lemma on_net_run {A B} (m : M (network_t value) A) (k : A → M (world value) B)
    w this' a :
  m (net w) = (this', Normal a) →
  (on_net m ≫= k) w = k a {| net := this'; console := console w |}.
Proof. intros Hm. unfold mbind, M_bind, on_net. by rewrite Hm. Qed.

Lemma printStats_run expected step w out :
  last (layers (net w)) = Some out →
  ∃ os err,
    outputs (net w) = (net w, Normal os)
    ∧ totalError expected (net w) = (net w, Normal err)
    ∧ printStats expected step w
      = ({| net := net w;
            console := console w ++ [Banner step; Output os; Error err] |},
         Normal tt).
Proof.
  intros Hlast. eexists _, _.
  split; [by apply outputs_run|]. split; [by apply totalError_run|].
  unfold printStats.
  erewrite bind_run; [|done].
  erewrite on_net_run; [|by apply outputs_run].
  erewrite bind_run; [|done].
  erewrite on_net_run; [|by apply totalError_run].
  unfold console_log. cbn [net console]. by rewrite <- !app_assoc.
Qed.

Lemma last_nonempty {A} (l : list A) : 1 ≤ length l → is_Some (last l).
Proof.
  intros Hl. destruct (last l) eqn:E; [done|].
  apply last_None in E. rewrite E in Hl. simpl in Hl. lia.
Qed.

Lemma shape_length net net' : shape net = shape net' → length net = length net'.
Proof. intros H%(f_equal length). unfold shape in H. by rewrite !length_fmap in H. Qed.

(** What the loop keeps. *)
Lemma training_loop inputs expected n lo w :
  wired (layers (net w)) →
  2 ≤ length (layers (net w)) →
  ∃ w' more,
    for_up n lo (λ i,
      on_net (trainingStep inputs expected);;
      if decide (i = 1 ∨ i mod 1000 = 0) then printStats expected i
      else mret tt) w = (w', Normal tt)
    ∧ net w' = Nat.iter n (λ this, (trainingStep inputs expected this).1) (net w)
    ∧ shape (layers (net w')) = shape (layers (net w))
    ∧ console w' = console w ++ more
    ∧ banners more = filter (λ i, i = 1 ∨ i mod 1000 = 0) (seq lo n)
    ∧ length more = 3 * length (banners more).
Proof.
  revert lo w. induction n as [|n IH]; intros lo w Hw Hlen.
  { exists w, []. by rewrite app_nil_r. }
  cbn [for_up seq].
  destruct (trainingStep inputs expected (net w)) as [this1 r] eqn:Hstep.
  pose proof (trainingStep_pure inputs expected _ Hw Hlen) as Hpure.
  rewrite Hstep in Hpure. injection Hpure as Hthis1 ->.
  pose proof (trainingStep_preserves_shape inputs expected (net w)) as Hshape.
  rewrite Hstep in Hshape. cbn [fst] in Hshape.
  assert (wired (layers this1)) as Hw1 by by apply (wired_shape _ _ (eq_sym Hshape)).
  assert (2 ≤ length (layers this1)) as Hlen1
    by by rewrite (shape_length _ _ Hshape).
  destruct (last_nonempty (layers this1)) as [out Hout]; [lia|].
  set (w1 := {| net := this1; console := console w |}).
  destruct (printStats_run expected lo w1 out Hout) as (os & err & _ & _ & Hprint).
  set (w2 := if decide (lo = 1 ∨ lo mod 1000 = 0)
             then {| net := this1;
                     console := console w ++ [Banner lo; Output os; Error err] |}
             else w1).
  assert (net w2 = this1) as Hnet2 by (unfold w2; by destruct decide).
  destruct (IH (S lo) w2) as (w' & more & Hrun & Hit & Hsh & Hcon & Hban & Hmore);
    [by rewrite Hnet2..|].
  exists w'.
  exists ((if decide (lo = 1 ∨ lo mod 1000 = 0)
           then [Banner lo; Output os; Error err] else []) ++ more).
  split.
  { erewrite bind_run; [exact Hrun|].
    erewrite on_net_run; [|exact Hstep]. fold w1. unfold w2.
    destruct decide; [exact Hprint|done]. }
  split; [by rewrite Hit, Hnet2, Nat.iter_succ_r, Hstep|].
  split; [by rewrite Hsh, Hnet2|].
  split.
  { rewrite Hcon. unfold w2. destruct decide; cbn [console]; [|done].
    by rewrite <- app_assoc. }
  rewrite filter_cons. unfold banners in *. rewrite omap_app, length_app.
  destruct decide; simpl; rewrite Hban; [split; [done|]|split; [done|]].
  - rewrite Hmore, Hban. simpl. lia.
  - by rewrite Hmore, Hban.
Qed.

(** X9.  The run of example.js, for any network of at least two layers
    in which no node has more weights than the previous layer has nodes,
    any vectors and any number [n] of steps: it ends without an
    exception; [printStats] prints three lines each time it is called,
    and it is called for the steps [0], [1] and the multiples of [1000]
    up to [n], in this order; it never changes the network, which ends as
    [n] training steps leave it after the first [feedInputs], with the
    number of layers, nodes and weights it started with. *)
Theorem script_completes inputs expected n this :
  wired (layers this) →
  2 ≤ length (layers this) →
  ∃ w,
    script inputs expected n {| net := this; console := [] |} = (w, Normal tt)
    ∧ banners (console w)
      = 0 :: filter (λ i, i = 1 ∨ i mod 1000 = 0) (seq 1 n)
    ∧ length (console w) = 3 * length (banners (console w))
    ∧ net w = Nat.iter n (λ this, (trainingStep inputs expected this).1)
                (feedInputs inputs this).1
    ∧ shape (layers (net w)) = shape (layers this).
Proof.
  intros Hw Hlen. unfold script.
  set (fed := with_layers (forward (activationFunction (definition this))
                             inputs (layers this)) this).
  pose proof (feedInputs_pure inputs this Hw) as Hfeed. fold fed in Hfeed.
  assert (shape (layers fed) = shape (layers this)) as Hshape.
  { pose proof (feedInputs_preserves (λ node, length (weights node))
                  (λ _ _, eq_refl) inputs this) as H.
    by rewrite Hfeed in H. }
  assert (wired (layers fed)) as Hw1 by by apply (wired_shape _ _ (eq_sym Hshape)).
  assert (2 ≤ length (layers fed)) as Hlen1
    by by rewrite (shape_length _ _ Hshape).
  destruct (last_nonempty (layers fed)) as [out Hout]; [lia|].
  set (w0 := {| net := fed; console := [] |}).
  destruct (printStats_run expected 0 w0 out Hout) as (os & err & _ & _ & Hprint).
  cbn [net console app] in Hprint.
  destruct (training_loop inputs expected n 1
              {| net := fed; console := [Banner 0; Output os; Error err] |})
    as (w & more & Hrun & Hit & Hsh & Hcon & Hban & Hmore); [done..|].
  cbn [net console] in *.
  exists w. split.
  { erewrite on_net_run; [|exact Hfeed]. cbn [console]. fold w0.
    erewrite bind_run; [|exact Hprint]. exact Hrun. }
  rewrite Hcon.
  assert (∀ c : list (line value),
            banners ([Banner 0; Output os; Error err] ++ c) = 0 :: banners c)
    as Hb by done.
  rewrite Hb, Hban. split; [done|].
  split; [rewrite length_app, Hmore, Hban; simpl; lia|].
  split; [by rewrite Hfeed|congruence].
Qed.

Lemma step_keeps_reads inputs expected fed :
  feedInputs inputs fed = (fed, Normal tt) →
  2 ≤ length (layers fed) →
  ∃ this',
    trainingStep inputs expected fed = (this', Normal tt)
    ∧ (outputs this').2 = (outputs fed).2
    ∧ ∀ e, (totalError e this').2 = (totalError e fed).2.
Proof.
  intros Hrun Hlen.
  assert (wired (layers fed)) as Hw.
  { apply (feedInputs_completes_iff inputs). by rewrite Hrun. }
  set (d := definition fed).
  assert (forward (activationFunction d) inputs (network d) = layers fed) as HF.
  { rewrite feedInputs_pure in Hrun by done. injection Hrun as Hrun.
    apply (f_equal layers) in Hrun. by rewrite layers_with_layers in Hrun. }
  pose proof (trained_forward_values (λ c, output c) d inputs expected
                (λ _ _, eq_refl) (λ _ _, eq_refl) (λ _ _, eq_refl)) as Hvals.
  simpl in Hvals. rewrite HF in Hvals.
  destruct (last_nonempty (layers fed)) as [outF HoutF]; [lia|].
  assert (∃ outT, last (trained d inputs expected) = Some outT
                   ∧ (λ node, output (cached node)) <$> outT
                     = (λ node, output (cached node)) <$> outF)
    as (outT & HoutT & Houts).
  { apply (f_equal last) in Hvals. rewrite !fmap_last, HoutF in Hvals.
    destruct (last (trained d inputs expected)) as [outT|]; [|done].
    exists outT. split; [done|]. simpl in Hvals. by injection Hvals. }
  exists (with_layers (trained d inputs expected) fed).
  split; [by apply trainingStep_pure|].
  rewrite (outputs_run _ outT), (outputs_run _ outF) by done.
  split; [cbn [snd]; by rewrite Houts|].
  intros e. rewrite (totalError_run e _ outT), (totalError_run e _ outF) by done.
  cbn [snd]. do 2 f_equal.
  by apply (imap_outputs_ext (λ i o, errorFunction d o (nth i e undefined))).
Qed.


(** X10.  In the run of example.js the statistics printed for step [1]
    are those printed for step [0]: the same outputs and the same error.
    [printStats] reads the cached outputs, and after the first training
    step these are still the outputs of the forward pass with the weights
    before the step, which is the forward pass that was run for step [0]
    (networks as in X9, at least one step). *)
Theorem script_first_stats_repeat inputs expected n this :
  wired (layers this) →
  2 ≤ length (layers this) →
  1 ≤ n →
  ∃ w os err more,
    script inputs expected n {| net := this; console := [] |} = (w, Normal tt)
    ∧ console w
      = Banner 0 :: Output os :: Error err
        :: Banner 1 :: Output os :: Error err :: more.
Proof.
  intros Hw Hlen Hn. destruct n as [|n]; [lia|]. unfold script.
  set (fed := with_layers (forward (activationFunction (definition this))
                             inputs (layers this)) this).
  pose proof (feedInputs_pure inputs this Hw) as Hfeed. fold fed in Hfeed.
  pose proof (feedInputs_fed _ _ _ Hfeed) as Hfed.
  assert (2 ≤ length (layers fed)) as Hlen1
    by (unfold fed; by rewrite layers_with_layers, length_forward).
  destruct (step_keeps_reads inputs expected fed Hfed Hlen1)
    as (this1 & Hstep & Houts & Herr).
  pose proof (trainingStep_preserves_shape inputs expected fed) as Hshape.
  rewrite Hstep in Hshape. cbn [fst] in Hshape.
  assert (wired (layers fed)) as Hwf.
  { apply (feedInputs_completes_iff inputs). by rewrite Hfed. }
  assert (wired (layers this1)) as Hw1 by by apply (wired_shape _ _ (eq_sym Hshape)).
  assert (2 ≤ length (layers this1)) as Hlen2
    by by rewrite (shape_length _ _ Hshape).
  destruct (last_nonempty (layers fed)) as [out Hout]; [lia|].
  destruct (last_nonempty (layers this1)) as [out1 Hout1]; [lia|].
  destruct (printStats_run expected 0 {| net := fed; console := [] |} out Hout)
    as (os & err & Hos & Her & Hprint).
  cbn [net console app] in Hprint, Hos, Her.
  set (c0 := [Banner 0; Output os; Error err]) in *.
  destruct (printStats_run expected 1 {| net := this1; console := c0 |} out1 Hout1)
    as (os1 & err1 & Hos1 & Her1 & Hprint1).
  cbn [net console app] in Hprint1, Hos1, Her1.
  assert (os1 = os) as ->.
  { rewrite Hos, Hos1 in Houts. cbn [snd] in Houts. congruence. }
  assert (err1 = err) as ->.
  { specialize (Herr expected). rewrite Her, Her1 in Herr. cbn [snd] in Herr.
    congruence. }
  destruct (training_loop inputs expected n 2
              {| net := this1;
                 console := c0 ++ [Banner 1; Output os; Error err] |})
    as (w & more & Hrun & _ & _ & Hcon & _); [done..|].
  cbn [net console] in *.
  exists w, os, err, more. split; [|by rewrite Hcon].
  erewrite on_net_run; [|exact Hfeed]. cbn [console].
  erewrite bind_run; [|exact Hprint]. cbn [for_up].
  erewrite bind_run; [exact Hrun|].
  erewrite on_net_run; [|exact Hstep]. cbn [console].
  destruct decide as [|Hn1]; [exact Hprint1|]. destruct Hn1. by left.
Qed.


(** *** A training step does not read what an earlier call has cached *)

Lemma fwdLayer_core_ext act prev prev' layer layer' :
  (λ node, output (cached node)) <$> prev
    = (λ node, output (cached node)) <$> prev' →
  (λ node, (weights node, bias node)) <$> layer
    = (λ node, (weights node, bias node)) <$> layer' →
  core <$> (fwdNode act prev <$> layer) = core <$> (fwdNode act prev' <$> layer').
Proof.
  intros Hp Hl. apply list_eq. intros i.
  apply (f_equal (λ x, x !! i)) in Hl. rewrite !list_lookup_fmap in *.
  destruct (layer !! i) as [n|], (layer' !! i) as [n'|]; try done.
  simpl in *. injection Hl as Hw Hb. unfold core. simpl.
  by rewrite Hw, Hb, (weightedSum_ext prev prev').
Qed.

Lemma core_outputs layer layer' :
  core <$> layer = core <$> layer' →
  (λ node, output (cached node)) <$> layer
  = (λ node, output (cached node)) <$> layer'.
Proof.
  intros H. apply (f_equal (fmap snd)) in H.
  by rewrite <- !list_fmap_compose in H.
Qed.

Lemma forward_from_core_ext act prev prev' rest rest' :
  (λ node, output (cached node)) <$> prev
    = (λ node, output (cached node)) <$> prev' →
  params rest = params rest' →
  fmap (M:=list) core <$> forward_from act prev rest
  = fmap core <$> forward_from act prev' rest'.
Proof.
  revert prev prev' rest'.
  induction rest as [|l rest IH]; intros prev prev' rest' Hp Hr;
    destruct rest' as [|l' rest']; try done.
  unfold params in Hr. simpl in Hr. injection Hr as Hl Hr. simpl.
  pose proof (fwdLayer_core_ext act prev prev' l l' Hp Hl) as Hc.
  rewrite Hc. f_equal. apply IH; [|done]. by apply core_outputs.
Qed.

Lemma proposals_core_ext um upd e prev prev' node node' :
  (λ node, output (cached node)) <$> prev
    = (λ node, output (cached node)) <$> prev' →
  core node = core node' →
  proposals um upd e prev node = proposals um upd e prev' node'.
Proof.
  intros Hp Hc. destruct node as [ws b []], node' as [ws' b' []].
  unfold core in Hc. simpl in Hc. injection Hc as -> -> -> ->.
  assert (zip_with (λ _ p, upd e (output (cached p))) ws' prev
          = zip_with (λ _ p, upd e (output (cached p))) ws' prev') as Hz.
  { rewrite <- (zip_with_fmap_r (λ _ o, upd e o)
                   (λ node, output (cached node)) ws' prev).
    rewrite <- (zip_with_fmap_r (λ _ o, upd e o)
                   (λ node, output (cached node)) ws' prev').
    by rewrite Hp. }
  unfold proposals, upd_cached. simpl. by rewrite Hz.
Qed.

Lemma imap_core_ext (f f' : nat → node_t value → node_t value) layer layer' :
  core <$> layer = core <$> layer' →
  (∀ i node node', core node = core node' → f i node = f' i node') →
  imap f layer = imap f' layer'.
Proof.
  intros Hl Hf. apply list_eq. intros i.
  apply (f_equal (λ x, x !! i)) in Hl.
  rewrite !list_lookup_fmap in Hl. rewrite !list_lookup_imap.
  destruct (layer !! i) as [n|], (layer' !! i) as [n'|]; try done.
  assert (core n = core n') as Hc by (cbn [fmap option_fmap option_map] in Hl; congruence).
  simpl. by rewrite (Hf i n n').
Qed.

Lemma backward_core_ext um errD actD expected prev prev' rest rest' :
  (λ node, output (cached node)) <$> prev
    = (λ node, output (cached node)) <$> prev' →
  fmap (M:=list) core <$> rest = fmap core <$> rest' →
  backward um errD actD expected prev rest
  = backward um errD actD expected prev' rest'.
Proof.
  revert prev prev' rest'.
  induction rest as [|l rest IH]; intros prev prev' rest' Hp Hr;
    destruct rest' as [|l' rest']; try done.
  simpl in Hr. injection Hr as Hl Hr. simpl.
  rewrite <- (IH l l' rest') by (by try apply core_outputs).
  destruct (backward um errD actD expected l rest) as [|nx done].
  - f_equal. apply imap_core_ext; [done|]. intros i n n' Hc.
    unfold outNode. unfold core in Hc. injection Hc as Hw Hb Hi Ho.
    rewrite Hi, Ho. apply proposals_core_ext; [done|].
    unfold core. by rewrite Hw, Hb, Hi, Ho.
  - f_equal. apply imap_core_ext; [done|]. intros i n n' Hc.
    unfold hidNode. unfold core in Hc. injection Hc as Hw Hb Hi Ho.
    rewrite Hi. apply proposals_core_ext; [done|].
    unfold core. by rewrite Hw, Hb, Hi, Ho.
Qed.

Lemma proposed_tail_ext d d' inputs expected :
  params (network d) = params (network d') →
  updateMultiplier d = updateMultiplier d' →
  activationFunction d = activationFunction d' →
  activationFunctionDerivative d = activationFunctionDerivative d' →
  errorFunctionDerivative d = errorFunctionDerivative d' →
  tail (proposed d inputs expected) = tail (proposed d' inputs expected).
Proof.
  intros Hp Hum Hact HactD HerrD. unfold proposed.
  rewrite <- Hum, <- Hact, <- HactD, <- HerrD.
  destruct (network d) as [|l0 rest], (network d') as [|l0' rest']; try done.
  unfold params in Hp. simpl in Hp. injection Hp as Hl Hr. simpl.
  assert ((λ node, output (cached node)) <$> setInputs inputs l0
          = (λ node, output (cached node)) <$> setInputs inputs l0') as H0.
  { unfold setInputs. apply list_eq. intros i.
    apply (f_equal (λ x, x !! i)) in Hl.
    rewrite !list_lookup_fmap, !list_lookup_imap in *.
    by destruct (l0 !! i), (l0' !! i). }
  apply backward_core_ext; [done|]. by apply forward_from_core_ext.
Qed.

(** X6.  A training step does not read what earlier calls have cached.
    Two networks with the same weights and biases, the same
    [updateMultiplier] and the same functions, whatever their cached
    values, are left by [trainingStep(inputs, expected)] with identical
    nodes in every layer after the input layer: same weights, same
    biases, same cached values (on the networks of C1).  The input layer
    is left out: its nodes get no proposals, and the last loop adds to
    their weights the [cached.weightUpdates] they already had. *)
Theorem trainingStep_ignores_cache inputs expected this that :
  params (layers this) = params (layers that) →
  settings this = settings that →
  wired (layers this) →
  2 ≤ length (layers this) →
  ∃ this' that',
    trainingStep inputs expected this = (this', Normal tt)
    ∧ trainingStep inputs expected that = (that', Normal tt)
    ∧ tail (layers this') = tail (layers that').
Proof.
  intros Hp Hs Hw Hlen.
  assert (wired (layers that)) as Hw' by by apply (wired_params _ _ Hp).
  assert (2 ≤ length (layers that)) as Hlen'.
  { apply (f_equal length) in Hp. unfold params in Hp.
    rewrite !length_fmap in Hp. by rewrite <- Hp. }
  eexists _, _. split; [by apply trainingStep_pure|].
  split; [by apply trainingStep_pure|].
  rewrite !layers_with_layers. unfold trained.
  rewrite <- !fmap_tail. f_equal.
  unfold settings in Hs. injection Hs as Hum Hact HactD _ HerrD.
  by apply proposed_tail_ext.
Qed.


(** *** One proposed update for every weight *)

Lemma consistent_proposals um upd e prev node :
  length (weights node) ≤ length prev →
  consistent (proposals um upd e prev node).
Proof.
  intros Hlen. unfold consistent, proposals. simpl.
  rewrite length_zip_with. lia.
Qed.

Lemma consistent_proposed d inputs expected l i node :
  wired (network d) →
  (∀ layer0, network d !! 0 = Some layer0 → Forall consistent layer0) →
  node_at (proposed d inputs expected) l i = Some node →
  consistent node.
Proof.
  intros Hw H0 Hn. destruct l as [|l].
  - unfold node_at in Hn. rewrite proposed_lookup_0, forward_lookup_0 in Hn.
    destruct (network d !! 0) as [layer0|] eqn:Hl0; [|done]. simpl in Hn.
    unfold setInputs in Hn. rewrite list_lookup_imap in Hn.
    destruct (layer0 !! i) as [node0|] eqn:Hn0; [|done].
    simpl in Hn. injection Hn as <-.
    apply (Forall_lookup_1 _ _ _ _ (H0 _ eq_refl) Hn0).
  - apply proposed_node_at_S in Hn as (node0 & prev & Hn0 & Hp & ->).
    pose proof (wired_proposals_length d inputs l i node0 prev Hw Hn0 Hp).
    destruct (proposed d inputs expected !! S (S l));
      by apply consistent_proposals.
Qed.

(** X7.  [Network.node(weights, bias)] gives a node with these weights
    and this bias whose [cached.weightUpdates] holds one [0] for every
    weight.  One proposed update per weight is kept by training: if
    every node of the input layer has as many [cached.weightUpdates] as
    weights, then [trainingStep(inputs, expected)] (on the networks of
    C1) returns normally, leaves the network with the layers, the nodes
    and the number of weights per node that it had and with the
    [cached.input] and [cached.output] of [feedInputs(inputs)], and
    after it every node of every layer has as many
    [cached.weightUpdates] as weights, whatever the nodes after the
    input layer held before. *)
Theorem one_update_per_weight inputs expected this :
  (∀ ws b,
     let node := Network_node ws b in
     weights node = ws ∧ bias node = b ∧ consistent node
     ∧ Forall (λ u, u = zero) (weightUpdates (cached node)))
  ∧ (wired (layers this) →
     2 ≤ length (layers this) →
     (∀ layer0, layers this !! 0 = Some layer0 → Forall consistent layer0) →
     ∃ fed this',
       feedInputs inputs this = (fed, Normal tt)
       ∧ trainingStep inputs expected this = (this', Normal tt)
       ∧ shape (layers this') = shape (layers this)
       ∧ fmap (M:=list) (λ node, (input (cached node), output (cached node)))
           <$> layers this'
         = fmap (λ node, (input (cached node), output (cached node)))
           <$> layers fed
       ∧ Forall (Forall consistent) (layers this')).
Proof.
  split.
  { intros ws b. simpl. split; [done|]. split; [done|]. split.
    - unfold consistent. simpl. by rewrite length_fmap.
    - apply Forall_fmap. by apply Forall_true. }
  intros Hw Hlen H0.
  destruct (trainingStep_after_feedInputs inputs expected this Hw Hlen)
    as (fed & this' & Hfed & Hrun & -> & Hshape & Hvals).
  exists fed, (with_layers (trained (definition this) inputs expected) this).
  do 4 (split; [done|]). clear fed Hfed Hrun Hshape Hvals.
  rewrite layers_with_layers.
  apply Forall_lookup. intros l layer Hl. apply Forall_lookup. intros i node Hn.
  assert (node_at (trained (definition this) inputs expected) l i = Some node)
    as Hat by (unfold node_at; by rewrite Hl).
  rewrite trained_node_at in Hat.
  destruct (node_at (proposed _ _ _) l i) as [node0|] eqn:Hn0; [|done].
  simpl in Hat. injection Hat as <-.
  pose proof (consistent_proposed _ _ _ _ _ _ Hw H0 Hn0) as Hc.
  unfold consistent in *. simpl. by rewrite length_imap.
Qed.

(** *** A network of a single layer gives its inputs back *)

Lemma imap_nth_id {A B} (d : A) (l : list A) (k : list B) :
  length l = length k → imap (λ i _, nth i l d) k = l.
Proof.
  intros Hlen. apply list_eq. intros i. rewrite list_lookup_imap.
  destruct (k !! i) as [y|] eqn:Hk; simpl.
  - apply lookup_lt_Some in Hk.
    destruct (lookup_lt_is_Some_2 l i) as [x Hx]; [lia|].
    rewrite Hx. f_equal. by apply nth_lookup_Some.
  - apply lookup_ge_None in Hk. symmetry. apply lookup_ge_None. lia.
Qed.

(** X8.  On a network of a single layer, [feedInputs(inputs)] followed by
    [outputs()] returns [inputs] itself when there is one input for every
    node: the nodes of the first layer output what they are given, with
    no weight, bias or activation function applied. *)
Theorem single_layer_gives_inputs_back inputs this layer0 :
  layers this = [layer0] →
  length inputs = length layer0 →
  ((feedInputs inputs;; outputs) this).2 = Normal inputs.
Proof.
  intros Hnet Hlen.
  erewrite bind_run; [|apply feedInputs_pure; by rewrite Hnet].
  rewrite Hnet. cbn [forward forward_from].
  rewrite (outputs_run _ (setInputs inputs layer0)) by done.
  cbn [snd]. f_equal. unfold setInputs. rewrite fmap_imap.
  by apply imap_nth_id.
Qed.

(** *** The proposals of the hidden layers *)

(** X14.  [trainingStep(inputs, expected)] (on the networks of C1)
    returns normally, and leaves the network with the layers, the nodes
    and the number of weights per node that it had, and every node with
    the [cached.input] and [cached.output] that [feedInputs(inputs)]
    leaves in it on the network before the call.  After it,
    every node of a hidden layer (any layer but the first that has a next
    layer) holds one proposed update for each of its weights, update [j]
    being [-1 * errorWrtIn * previousLayer[j].cached.output *
    updateMultiplier], multiplied from the left in this order, with the
    [cached.errorWrtIn] of the node and the output that the step leaves
    in node [j] of the previous layer. *)
Theorem trainingStep_hidden_updates inputs expected this :
  wired (layers this) →
  2 ≤ length (layers this) →
  ∃ fed this',
    feedInputs inputs this = (fed, Normal tt)
    ∧ trainingStep inputs expected this = (this', Normal tt)
    ∧ shape (layers this') = shape (layers this)
    ∧ fmap (M:=list) (λ node, (input (cached node), output (cached node)))
        <$> layers this'
      = fmap (λ node, (input (cached node), output (cached node)))
        <$> layers fed
    ∧ ∀ l i node,
        S (S l) < length (layers this') →
        node_at (layers this') (S l) i = Some node →
        length (weightUpdates (cached node)) = length (weights node)
        ∧ ∀ j, j < length (weights node) →
            ∃ p,
              node_at (layers this') l j = Some p
              ∧ weightUpdates (cached node) !! j
                = Some (mul (mul (mul (neg one) (errorWrtIn (cached node)))
                                 (output (cached p)))
                            (updateMultiplier (definition this))).
Proof.
  intros Hw Hlen.
  destruct (trainingStep_after_feedInputs inputs expected this Hw Hlen)
    as (fed & this' & Hfed & Hrun & -> & Hshape & Hvals).
  exists fed, (with_layers (trained (definition this) inputs expected) this).
  do 4 (split; [done|]). clear fed Hfed Hrun Hshape Hvals.
  rewrite layers_with_layers, length_trained. unfold layers in *.
  set (d := definition this) in *.
  intros l i node Hl. rewrite trained_node_at.
  destruct (node_at (proposed d inputs expected) (S l) i) as [nodeP|] eqn:HP;
    [|done].
  intros [= <-].
  apply proposed_node_at_S in HP as (node0 & prev & Hn0 & Hprev & ->).
  destruct (lookup_lt_is_Some_2 (proposed d inputs expected) (S (S l)))
    as [next Hnext]; [by rewrite length_proposed|].
  rewrite Hnext.
  pose proof (wired_proposals_length d inputs l i node0 prev Hw Hn0 Hprev)
    as Hfit.
  simpl. split.
  - rewrite length_zip_with, length_imap. lia.
  - rewrite length_imap. intros j Hj.
    destruct (lookup_lt_is_Some_2 prev j) as [p Hp]; [lia|].
    destruct (lookup_lt_is_Some_2 (weights node0) j) as [w Hwj]; [lia|].
    destruct (node_at_fmap (λ node, output (cached node))
                (forward (activationFunction d) inputs (network d))
                (trained d inputs expected) l j p) as (p' & Hp' & Hout).
    { symmetry. by apply (trained_forward_values output). }
    { unfold node_at. by rewrite Hprev. }
    exists p'. split; [done|].
    rewrite lookup_zip_with, Hwj, <- Hout. simpl. by rewrite Hp.
Qed.

End Further.

(** ** Enclosures *)

Section Enclosures.
Local Open Scope R_scope.

Lemma scale_pos : 0 < IZR scale.
Proof. apply IZR_lt. reflexivity. Qed.

Lemma le_div a b c : 0 < c → a * c <= b → a <= b / c.
Proof.
  intros Hc Hab. apply (Rmult_le_reg_r c); [done|].
  by replace (b / c * c) with b by (field; lra).
Qed.

Lemma div_le a b c : 0 < c → a <= b * c → a / c <= b.
Proof.
  intros Hc Hab. apply (Rmult_le_reg_r c); [done|].
  by replace (a / c * c) with a by (field; lra).
Qed.

Lemma floor_div_le a b : (0 < b)%Z → IZR (a / b) * IZR b <= IZR a.
Proof.
  intros Hb. rewrite <- mult_IZR. apply IZR_le.
  rewrite Z.mul_comm. by apply Z.mul_div_le.
Qed.

Lemma cdiv_ge a b : (0 < b)%Z → IZR a <= IZR (cdiv a b) * IZR b.
Proof.
  intros Hb. rewrite <- mult_IZR. apply IZR_le. unfold cdiv.
  pose proof (Z.mul_div_le (- a) b Hb). lia.
Qed.

Lemma contains_int n : contains (I_int n) (IZR n).
Proof. unfold contains, I_int. simpl. rewrite mult_IZR. lra. Qed.

Lemma contains_ratio n d :
  (0 <? d)%Z = true → contains (I_ratio n d) (IZR n * / IZR d).
Proof.
  intros Hd%Z.ltb_lt. unfold contains, I_ratio. simpl.
  assert (0 < IZR d) as Hd' by (by apply IZR_lt).
  pose proof (floor_div_le (n * scale) d Hd) as Hlo.
  pose proof (cdiv_ge (n * scale) d Hd) as Hhi.
  rewrite mult_IZR in Hlo, Hhi.
  assert (IZR n * / IZR d * IZR scale = IZR n * IZR scale / IZR d) as ->
    by (field; lra).
  split.
  - apply le_div; [done|]. lra.
  - apply div_le; [done|]. lra.
Qed.

Lemma contains_add I J x y :
  contains I x → contains J y → contains (I_add I J) (x + y).
Proof. unfold contains, I_add. simpl. rewrite !plus_IZR. lra. Qed.

Lemma contains_sub I J x y :
  contains I x → contains J y → contains (I_sub I J) (x - y).
Proof. unfold contains, I_sub. simpl. rewrite !minus_IZR. lra. Qed.

Lemma contains_neg I x : contains I x → contains (I_neg I) (- x).
Proof. unfold contains, I_neg. simpl. rewrite !opp_IZR. lra. Qed.

Lemma contains_mul I J x y :
  (0 <=? lo I)%Z = true → (0 <=? lo J)%Z = true →
  contains I x → contains J y → contains (I_mul I J) (x * y).
Proof.
  intros HI%Z.leb_le%IZR_le HJ%Z.leb_le%IZR_le [Hx1 Hx2] [Hy1 Hy2].
  unfold contains, I_mul. simpl.
  pose proof scale_pos as HS.
  pose proof (floor_div_le (lo I * lo J) scale eq_refl) as Hlo.
  pose proof (cdiv_ge (hi I * hi J) scale eq_refl) as Hhi.
  rewrite mult_IZR in Hlo, Hhi.
  set (X := x * IZR scale) in *. set (Y := y * IZR scale) in *.
  assert (x * y * IZR scale = X * Y / IZR scale) as ->
    by (unfold X, Y; field; lra).
  split.
  - apply le_div; [done|]. nra.
  - apply div_le; [done|]. nra.
Qed.

Lemma exp_le x y : x <= y → exp x <= exp y.
Proof.
  intros [Hlt| ->]; [|lra]. left. by apply exp_increasing.
Qed.

Lemma sq_down_le a :
  (0 <= a)%Z →
  (0 <= sq_down a)%Z
  ∧ IZR (sq_down a) / IZR scale <= (IZR a / IZR scale) * (IZR a / IZR scale).
Proof.
  intros Ha. pose proof scale_pos as HS. unfold sq_down. split.
  - apply Z.div_pos; [nia|reflexivity].
  - pose proof (floor_div_le (a * a) scale eq_refl) as Hlo.
    rewrite mult_IZR in Hlo. apply div_le; [done|].
    replace (IZR a / IZR scale * (IZR a / IZR scale) * IZR scale)
      with (IZR a * IZR a / IZR scale) by (field; lra).
    apply le_div; [done|]. lra.
Qed.

Lemma sq_iter_le k a y :
  (0 <= a)%Z →
  IZR a / IZR scale <= exp y →
  IZR (sq_iter k a) / IZR scale <= exp (2 ^ k * y).
Proof.
  revert a y. induction k as [|k IH]; intros a y Ha Hy.
  { simpl. by rewrite Rmult_1_l. }
  destruct (sq_down_le a Ha) as [Ha' Hsq]. pose proof scale_pos as HS.
  assert (0 <= IZR a / IZR scale) as Hpos.
  { apply Rle_mult_inv_pos; [by apply IZR_le|done]. }
  simpl sq_iter. replace (2 ^ S k * y) with (2 ^ k * (2 * y)) by (simpl; ring).
  apply IH; [done|]. replace (2 * y) with (y + y) by ring.
  rewrite exp_plus. pose proof (exp_pos y). nra.
Qed.

Lemma pow2_IZR k : IZR (2 ^ Z.of_nat k) = 2 ^ k.
Proof. by rewrite <- pow_IZR. Qed.

Lemma pow2_pos k : 0 < 2 ^ k.
Proof. apply pow_lt. lra. Qed.

Lemma exp_neg_lower_ok k n x :
  (0 <= n)%Z →
  (cdiv n (2 ^ Z.of_nat k) <= scale)%Z →
  x * IZR scale <= IZR n →
  IZR (exp_neg_lower k n) <= exp (- x) * IZR scale.
Proof.
  intros Hn Hc Hx. pose proof scale_pos as HS. pose proof (pow2_pos k) as H2.
  unfold exp_neg_lower. set (c := cdiv n (2 ^ Z.of_nat k)) in *.
  pose proof (cdiv_ge n (2 ^ Z.of_nat k)) as Hcn. fold c in Hcn.
  rewrite pow2_IZR in Hcn.
  assert (IZR n <= IZR c * 2 ^ k) as Hcn'.
  { apply Hcn. apply Z.pow_pos_nonneg; lia. }
  clear Hcn. set (y := - (IZR n / IZR scale) / 2 ^ k).
  assert (IZR (scale - c) / IZR scale <= exp y) as H0.
  { etrans; [|apply exp_ineq1_le]. rewrite minus_IZR. unfold y.
    apply div_le; [done|].
    replace ((1 + - (IZR n / IZR scale) / 2 ^ k) * IZR scale)
      with (IZR scale - IZR n / 2 ^ k) by (field; lra).
    assert (IZR n / 2 ^ k <= IZR c) by (by apply div_le). lra. }
  pose proof (sq_iter_le k (scale - c) y) as Hk.
  assert (2 ^ k * y = - (IZR n / IZR scale)) as Hy by (unfold y; field; lra).
  rewrite Hy in Hk.
  assert (exp (- (IZR n / IZR scale)) <= exp (- x)) as Hmono.
  { apply exp_le. assert (x <= IZR n / IZR scale) by (by apply le_div). lra. }
  assert (IZR (sq_iter k (scale - c)) / IZR scale <= exp (- x)) as Hfin.
  { etrans; [apply Hk; [lia|done]|done]. }
  apply (Rmult_le_compat_r (IZR scale)) in Hfin; [|lra].
  by replace (IZR (sq_iter k (scale - c)) / IZR scale * IZR scale)
    with (IZR (sq_iter k (scale - c))) in Hfin by (field; lra).
Qed.

Lemma exp_pos_lower_ok k n x :
  (0 <= n)%Z →
  IZR n <= x * IZR scale →
  IZR (exp_pos_lower k n) <= exp x * IZR scale.
Proof.
  intros Hn Hx. pose proof scale_pos as HS. pose proof (pow2_pos k) as H2.
  unfold exp_pos_lower. set (c := (n / 2 ^ Z.of_nat k)%Z).
  pose proof (floor_div_le n (2 ^ Z.of_nat k)) as Hcn. fold c in Hcn.
  rewrite pow2_IZR in Hcn.
  assert (IZR c * 2 ^ k <= IZR n) as Hcn'.
  { apply Hcn. apply Z.pow_pos_nonneg; lia. }
  clear Hcn. set (y := IZR n / IZR scale / 2 ^ k).
  assert (0 <= c)%Z as Hc0.
  { apply Z.div_pos; [done|]. apply Z.pow_pos_nonneg; lia. }
  assert (IZR (scale + c) / IZR scale <= exp y) as H0.
  { etrans; [|apply exp_ineq1_le]. rewrite plus_IZR. unfold y.
    apply div_le; [done|].
    replace ((1 + IZR n / IZR scale / 2 ^ k) * IZR scale)
      with (IZR scale + IZR n / 2 ^ k) by (field; lra).
    assert (IZR c <= IZR n / 2 ^ k) by (by apply le_div). lra. }
  pose proof (sq_iter_le k (scale + c) y) as Hk.
  assert (2 ^ k * y = IZR n / IZR scale) as Hy by (unfold y; field; lra).
  rewrite Hy in Hk.
  assert (exp (IZR n / IZR scale) <= exp x) as Hmono.
  { apply exp_le. by apply div_le. }
  assert (IZR (sq_iter k (scale + c)) / IZR scale <= exp x) as Hfin.
  { etrans; [apply Hk; [unfold scale in *; lia|done]|done]. }
  apply (Rmult_le_compat_r (IZR scale)) in Hfin; [|lra].
  by replace (IZR (sq_iter k (scale + c)) / IZR scale * IZR scale)
    with (IZR (sq_iter k (scale + c))) in Hfin by (field; lra).
Qed.

Lemma contains_exp_neg k I x :
  (0 <=? lo I)%Z = true →
  (cdiv (hi I) (2 ^ Z.of_nat k) <=? scale)%Z = true →
  (0 <? exp_pos_lower k (lo I))%Z = true →
  contains I x →
  contains (I_exp_neg k I) (exp (- x)).
Proof.
  intros Hlo%Z.leb_le Hc%Z.leb_le HP%Z.ltb_lt [Hx1 Hx2].
  pose proof scale_pos as HS.
  assert (lo I <= hi I)%Z as Hlh by (apply le_IZR; lra).
  pose proof (exp_neg_lower_ok k (hi I) x ltac:(lia) Hc Hx2) as HElx.
  pose proof (exp_pos_lower_ok k (lo I) x Hlo Hx1) as HPx.
  unfold contains, I_exp_neg. cbn [lo hi]. split; [done|].
  set (P := exp_pos_lower k (lo I)) in *.
  pose proof (cdiv_ge (scale * scale) P HP) as Hd. rewrite mult_IZR in Hd.
  apply IZR_lt in HP. pose proof (exp_pos x) as Hex.
  assert (exp (- x) * IZR scale * IZR P <= IZR scale * IZR scale) as HEP.
  { rewrite exp_Ropp.
    assert (/ exp x * IZR scale * IZR P
            = IZR scale * (IZR P / exp x)) as -> by (field; lra).
    apply Rmult_le_compat_l; [lra|]. apply div_le; [done|]. lra. }
  apply (Rmult_le_reg_r (IZR P)); [done|]. lra.
Qed.

Lemma contains_inv I x :
  (0 <? lo I)%Z = true →
  contains I x →
  contains (I_inv I) (1 / x).
Proof.
  intros Hlo%Z.ltb_lt [Hx1 Hx2]. pose proof scale_pos as HS.
  assert (0 < hi I)%Z as Hhi.
  { apply lt_IZR. apply IZR_lt in Hlo. lra. }
  pose proof (floor_div_le (scale * scale) (hi I) Hhi) as Hf.
  pose proof (cdiv_ge (scale * scale) (lo I) Hlo) as Hc.
  rewrite mult_IZR in Hf, Hc.
  assert (0 <= IZR (scale * scale / hi I)) as Hq.
  { apply IZR_le. apply Z.div_pos; [by vm_compute|done]. }
  apply IZR_lt in Hlo, Hhi.
  set (X := x * IZR scale) in *. assert (0 < X) as HX by lra.
  unfold contains, I_inv. cbn [lo hi].
  assert (1 / x * IZR scale = IZR scale * IZR scale / X) as ->.
  { unfold X. field. split; [lra|]. intros ->. unfold X in HX. lra. }
  assert (0 <= IZR (cdiv (scale * scale) (lo I))) as Hq' by nra.
  split.
  - apply le_div; [done|]. nra.
  - apply div_le; [done|]. nra.
Qed.

Lemma Rabs_le_between a b : Rabs a <= b → - b <= a <= b.
Proof. unfold Rabs. destruct (Rcase_abs a); lra. Qed.

Lemma contains_widen I x y :
  (0 <=? lo I)%Z = true →
  contains I x →
  Rabs (y - x) <= 1e-9 * x →
  contains (I_widen I) y.
Proof.
  intros Hlo%Z.leb_le%IZR_le [Hx1 Hx2] Hy%Rabs_le_between.
  pose proof scale_pos as HS.
  pose proof (cdiv_ge (lo I) (10 ^ 9) eq_refl) as Hcl.
  pose proof (cdiv_ge (hi I) (10 ^ 9) eq_refl) as Hch.
  unfold contains, I_widen. cbn [lo hi]. rewrite minus_IZR, plus_IZR.
  change (10 ^ 9)%Z with 1000000000%Z in *.
  set (X := x * IZR scale) in *.
  assert (1e-9 * x * IZR scale = 1e-9 * X) as HXe by (unfold X; ring).
  assert (y * IZR scale - X <= 1e-9 * X) as Hup by (unfold X; nra).
  assert (- (1e-9 * X) <= y * IZR scale - X) as Hdn by (unfold X; nra).
  clear HXe Hy. clearbody X. set (Y := y * IZR scale) in *. clearbody Y.
  split; lra.
Qed.
End Enclosures.

(** ** The worked example of example.js *)

Section RoundedFacts.
Variable rnd : R → R.
Variable fexp : R → R.
Variable fpow : R → R → R.

Local Open Scope R_scope.

(** Rounding a number between [10 ^ -18] and [10 ^ 18], and [Math.exp] at
    an argument between [-10] and [0], are off by at most one part in
    [10 ^ 9].  (Rounding to the nearest binary64 number is off by at most
    one part in [2 ^ 53] on these numbers.) *)
Hypothesis rnd_spec :
  ∀ x, 1e-18 <= x <= 1e18 → Rabs (rnd x - x) <= 1e-9 * x.
Hypothesis fexp_spec :
  ∀ x, -10 <= x <= 0 → Rabs (fexp x - exp x) <= 1e-9 * exp x.

Lemma contains_rnd I x :
  (1 <=? lo I)%Z = true →
  (hi I <=? 10 ^ 36)%Z = true →
  contains I x →
  contains (I_widen I) (rnd x).
Proof.
  intros Hlo%Z.leb_le Hhi%Z.leb_le Hx.
  apply (contains_widen I x); [apply Z.leb_le; lia|done|].
  apply rnd_spec. destruct Hx as [Hx1 Hx2].
  apply IZR_le in Hlo, Hhi.
  change (IZR scale) with 1000000000000000000 in *.
  change (IZR (10 ^ 36)) with 1000000000000000000000000000000000000 in Hhi.
  lra.
Qed.

Lemma contains_fexp_neg k I x :
  (0 <=? lo I)%Z = true →
  (cdiv (hi I) (2 ^ Z.of_nat k) <=? scale)%Z = true →
  (0 <? exp_pos_lower k (lo I))%Z = true →
  (hi I <=? 10 * scale)%Z = true →
  (0 <=? lo (I_exp_neg k I))%Z = true →
  contains I x →
  contains (I_widen (I_exp_neg k I)) (fexp (- x)).
Proof.
  intros Hlo Hc HP Hhi%Z.leb_le%IZR_le HE Hx.
  apply (contains_widen _ (exp (- x))); [done|by apply contains_exp_neg|].
  apply fexp_spec. destruct Hx as [Hx1 Hx2].
  apply Z.leb_le, IZR_le in Hlo. rewrite mult_IZR in Hhi.
  pose proof scale_pos. nra.
Qed.

(** Encloses an expression of decimal constants, [+], [-], [*], [1 / _],
    [rnd] and [fexp (- _)] operation by operation; the conditions on the
    intervals found are left, to be computed. *)
Ltac enclose :=
  lazymatch goal with
  | |- contains _ (IZR ?n * / IZR ?d) => exact (contains_ratio n d eq_refl)
  | |- contains _ (IZR ?n) => exact (contains_int n)
  | |- contains _ (rnd _) => eapply contains_rnd; enclose
  | |- contains _ (fexp (- _)) => eapply (contains_fexp_neg 24); enclose
  | |- contains _ (1 / _) => eapply contains_inv; enclose
  | |- contains _ (_ + _) => eapply contains_add; enclose
  | |- contains _ (_ - _) => eapply contains_sub; enclose
  | |- contains _ (- _) => eapply contains_neg; enclose
  | |- contains _ (_ * _) => eapply contains_mul; enclose
  | |- _ => idtac
  end.

Lemma close_to I x (c r : Z) :
  contains I x →
  ((c - r) * 10 ^ 12 <? lo I)%Z = true →
  (hi I <? (c + r) * 10 ^ 12)%Z = true →
  Rabs (x - IZR c / 1000000) < IZR r / 1000000.
Proof.
  intros [H1 H2] Hl%Z.ltb_lt%IZR_lt Hh%Z.ltb_lt%IZR_lt.
  rewrite mult_IZR in Hl, Hh. rewrite minus_IZR in Hl. rewrite plus_IZR in Hh.
  change (IZR scale) with 1000000000000000000 in *.
  change (IZR (10 ^ 12)) with 1000000000000 in *.
  apply Rabs_def1; lra.
Qed.

(** C9.  For the network of example.js (two inputs; hidden weights
    [[0.15, 0.2], [0.25, 0.3]] with bias [0.35]; output weights
    [[0.4, 0.45], [0.5, 0.55]] with bias [0.6]; logistic activation; half
    the squared error; update multiplier [0.5]), one
    [trainingStep([0.05, 0.10], [0.01, 0.99])] returns normally and leaves
    the first weight of the first output node within [0.00005] of
    [0.3589].  This holds in every arithmetic that rounds as [rnd_spec]
    and [fexp_spec] say, exact real arithmetic among them. *)
Theorem example_first_weight :
  ∃ this' node w5,
    trainingStep (ops:=rounded_ops rnd) (example_inputs rnd)
      (example_expected rnd) (example rnd fexp fpow) = (this', Normal tt)
    ∧ node_at (layers this') 2%nat 0%nat = Some node
    ∧ weights node !! 0%nat = Some (Some w5)
    ∧ Rabs (w5 - 0.3589) < 0.00005.
Proof.
  eexists _, _, _. split; [apply trainingStep_pure; simpl; repeat constructor|].
  rewrite layers_with_layers.
  split; [cbv -[Rplus Rmult Ropp Rinv Rminus Rdiv exp IZR pow];
          reflexivity|].
  split; [reflexivity|].
  replace 0.3589 with (IZR 358900 / 1000000) by lra.
  replace 0.00005 with (IZR 50 / 1000000) by lra.
  eapply close_to.
  - enclose; vm_compute; reflexivity.
  - vm_compute. reflexivity.
  - vm_compute. reflexivity.
Qed.

End RoundedFacts.

Lemma example_first_weight_witness :
  (∀ x, 1e-18 <= x <= 1e18 → Rabs (x - x) <= 1e-9 * x)%R
  ∧ (∀ x, -10 <= x <= 0 → Rabs (exp x - exp x) <= 1e-9 * exp x)%R
  ∧ ∃ this' node w5,
      trainingStep (ops:=exact_ops) exact_inputs exact_expected exact_example
        = (this', Normal tt)
      ∧ node_at (layers this') 2 0 = Some node
      ∧ weights node !! 0 = Some (Some w5)
      ∧ (Rabs (w5 - 0.3589) < 0.00005)%R.
Proof.
  assert (∀ x, 0 <= x → Rabs (x - x) <= 1e-9 * x)%R as Hid.
  { intros x Hx. rewrite Rminus_diag, Rabs_R0. lra. }
  split; [intros x Hx; apply Hid; lra|].
  split; [intros x Hx; apply Hid; left; apply exp_pos|].
  apply (example_first_weight (λ x, x) exp (λ x _, x * x)%R).
  - intros x Hx. apply Hid. lra.
  - intros x Hx. apply Hid. left. apply exp_pos.
Defined.

(** C1 at the network of example.js in exact real arithmetic, where a
    product times [1] is the product. *)
Lemma trainingStep_output_layer_witness :
  wired (layers exact_example)
  ∧ 2 ≤ length (layers exact_example)
  ∧ (∀ x y : rval,
       mul (JsOps:=exact_ops) (mul (JsOps:=exact_ops) x y)
           (one (JsOps:=exact_ops))
       = mul (JsOps:=exact_ops) x y)
  ∧ ∃ fed this',
      feedInputs (ops:=exact_ops) exact_inputs exact_example
        = (fed, Normal tt)
      ∧ trainingStep (ops:=exact_ops) exact_inputs exact_expected exact_example
        = (this', Normal tt)
      ∧ shape (layers this') = shape (layers exact_example)
      ∧ fmap (M:=list) (λ node, (input (cached node), output (cached node)))
          <$> layers this'
        = fmap (λ node, (input (cached node), output (cached node)))
          <$> layers fed
      ∧ ∀ i node,
          node_at (layers this') (length (layers this') - 1) i = Some node →
          let d := definition exact_example in
          let e :=
            mul (JsOps:=exact_ops)
              (errorFunctionDerivative d (output (cached node))
                 (nth i exact_expected None))
              (activationFunctionDerivative d (input (cached node))) in
          errorWrtIn (cached node) = e
          ∧ length (weightUpdates (cached node)) = length (weights node)
          ∧ biasUpdate (cached node)
            = mul (JsOps:=exact_ops) e (updateMultiplier d).
Proof.
  assert (wired (layers exact_example)) as Hw by (simpl; repeat constructor).
  assert (2 ≤ length (layers exact_example)) as Hlen by (simpl; lia).
  assert (∀ x y : rval,
            mul (JsOps:=exact_ops) (mul (JsOps:=exact_ops) x y)
                (one (JsOps:=exact_ops))
            = mul (JsOps:=exact_ops) x y) as Hone.
  { intros [x|] [y|]; simpl; try done. by rewrite Rmult_1_r. }
  split; [done|]. split; [done|]. split; [done|].
  destruct (trainingStep_output_layer (ops:=exact_ops)
              exact_inputs exact_expected exact_example Hw Hlen)
    as (fed & this' & Hfed & Hrun & Hshape & Hvals & Hnodes).
  exists fed, this'. do 4 (split; [done|]). intros i node Hnode.
  destruct (Hnodes i node Hnode) as (He & Hlenw & _ & _ & Hbias).
  split; [done|]. split; [done|]. by apply Hbias.
Defined.

(** ** The first example: [forwardPass] *)

Section ForwardPass.
Variable rnd : R → R.
Variable fexp : R → R.

Lemma forwardPass_nodes (net : list Functional.layer) inputs :
  Forall Functional.is_nodes net →
  ∃ out,
    Functional.forwardPass rnd fexp net inputs = Normal out
    ∧ length out
      = match last net with
        | Some (Functional.Nodes nodes) => length nodes
        | _ => length inputs
        end.
Proof.
  intros H. revert inputs. induction H as [|l net Hl Hnet IH]; intros inputs.
  { by exists inputs. }
  destruct l as [nodes|]; [|done]. cbn [Functional.forwardPass Functional.forwardLayer].
  destruct (IH ((λ inputWeights,
                   Functional.activationFunction rnd fexp
                     (Functional.weigh_from rnd 0 (Some 0%R) inputWeights inputs))
                <$> nodes)) as (out & Hrun & Hlen).
  exists out. split; [done|]. rewrite Hlen.
  destruct net as [|l' net]; [by rewrite length_fmap|].
  rewrite last_cons_cons.
  destruct (last (l' :: net)) as [[nodes'|ws b]|] eqn:E; [done| |].
  - apply last_Some_elem_of in E.
    by apply (proj1 (Forall_forall _ _) Hnet) in E.
  - by apply last_None in E.
Qed.

Lemma forwardPass_object (net : list Functional.layer) inputs :
  ¬ Forall Functional.is_nodes net →
  Functional.forwardPass rnd fexp net inputs = Throw TypeError.
Proof.
  revert inputs. induction net as [|l net IH]; intros inputs Hnot.
  { by destruct Hnot. }
  destruct l as [nodes|ws b]; [|done].
  cbn [Functional.forwardPass Functional.forwardLayer].
  apply IH. intros Hall. apply Hnot. by constructor.
Qed.

(** X18.  The first example's [forwardPass(network, inputs)] needs every
    layer to be an array: it returns normally exactly when it does not
    meet a layer that is an object [{weights: ..., bias: ...}], and then
    gives one number for every node of the last layer (and [inputs]
    itself for an empty network); on an object it throws [TypeError], as
    an object has no [map].  The [network] that the file itself defines
    is made of such objects, so that [forwardPass(network, inputs)]
    throws for every [inputs]. *)
Theorem forwardPass_needs_arrays (net : list Functional.layer) inputs :
  ((∃ out, Functional.forwardPass rnd fexp net inputs = Normal out)
   ↔ Forall Functional.is_nodes net)
  ∧ (Functional.forwardPass rnd fexp net inputs = Throw TypeError
     ↔ ¬ Forall Functional.is_nodes net)
  ∧ (∀ out,
       Functional.forwardPass rnd fexp net inputs = Normal out →
       length out
       = match last net with
         | Some (Functional.Nodes nodes) => length nodes
         | _ => length inputs
         end)
  ∧ Functional.forwardPass rnd fexp (Functional.network rnd) inputs
    = Throw TypeError.
Proof.
  assert (∀ l, Decision (Functional.is_nodes l)) as Hdec
    by (intros [|]; simpl; apply _).
  destruct (decide (Forall Functional.is_nodes net)) as [Hall|Hnot].
  - destruct (forwardPass_nodes net inputs Hall) as (out & Hrun & Hlen).
    rewrite Hrun.
    split; [split; [done|by exists out]|].
    split; [split; [done|by intros []]|].
    split; [by intros ? [= <-]|done].
  - rewrite (forwardPass_object net inputs Hnot).
    split; [split; [by intros [? ?]|done]|].
    split; [done|]. split; done.
Qed.

End ForwardPass.

(** ** Runs of the float model

    The linear network [Js.demo] on binary64 floats; all its numbers are
    dyadic, so that every sum and product below is exact and can be
    checked by hand. *)

Import Js.

(** C6 fails as stated.  [feedInputs([1])] on [Js.demo], whose input layer
    has two nodes, returns normally and mutates the nodes: the second
    input node outputs [undefined] and every later node [NaN].
    [trainingStep([1, 2], [0])], with one expected output for two output
    nodes, returns normally too and leaves [NaN] in the weights of the
    second output node and of both hidden nodes. *)
Lemma shape_mismatch_counterexample :
  length [Num 1%float] ≠ length (demo_network !!! 0%nat)
  ∧ (feedInputs [Num 1%float] demo).2 = Normal tt
  ∧ activations (layers demo)
    = [ [Num 0; Num 0]; [Num 0; Num 0]; [Num 0; Num 0] ]%float
  ∧ activations (layers (feedInputs [Num 1%float] demo).1)
    = [ [Num 1; Undefined]; [Num nan; Num nan]; [Num nan; Num nan] ]%float
  ∧ length [Num 0%float] ≠ length (demo_network !!! 2%nat)
  ∧ (trainingStep demo_inputs [Num 0%float] demo).2 = Normal tt
  ∧ fmap (M:=list) weights
      <$> layers (trainingStep demo_inputs [Num 0%float] demo).1
    = [ [ []; [] ];
        [ [Num nan; Num nan]; [Num nan; Num nan] ];
        [ [Num (-0.90625); Num (-1.140625)]; [Num nan; Num nan] ] ]%float.
Proof. repeat split; by vm_compute. Qed.

(** C8 fails as stated.  [new Network(...)] accepts a network of a single
    layer, and one whose hidden node has three weights after an input
    layer of two nodes; the latter is only noticed when [feedInputs]
    reads the output of a third input node. *)
Lemma invalid_topology_counterexample :
  length one_layer < 2
  ∧ Network (linear one_layer) = Normal {| definition := linear one_layer |}
  ∧ ¬ wired too_many_weights
  ∧ Network (linear too_many_weights)
    = Normal {| definition := linear too_many_weights |}
  ∧ (feedInputs demo_inputs {| definition := linear too_many_weights |}).2
    = Throw TypeError.
Proof.
  split; [simpl; lia|]. split; [done|]. split; [|done].
  simpl. intros [Hbad _]. apply Forall_cons in Hbad as [Hbad _].
  simpl in Hbad. lia.
Qed.

(** One step on [Js.demo] with inputs [1, 2] and expected outputs [0, 1]:
    the first output node.  Its input is [1.5 * 0.5 + 1.75 * 0.5 + 0.25],
    its error with respect to its input [(1.875 - 0) * 1], its updates
    [-(1.875 * 1.5 * 0.5)] and [-(1.875 * 1.75 * 0.5)]; the bias stays. *)
Example demo_first_output_node :
  node_at (layers (trainingStep demo_inputs demo_expected demo).1) 2 0
  = Some {| weights := [Num (-0.90625); Num (-1.140625)];
            bias := Num 0.25;
            cached := {| input := Num 1.875;
                         output := Num 1.875;
                         weightUpdates := [Num (-1.40625); Num (-1.640625)];
                         biasUpdate := Num 0.9375;
                         errorWrtIn := Num 1.875 |} |}%float.
Proof. vm_compute. reflexivity. Qed.

(** The first hidden node in the same step: its error with respect to its
    output is [1.875 * 0.5 + 0.9375 * 0.25], over the weights [0.5] and
    [0.25] that the output nodes had before the step. *)
Example demo_first_hidden_node :
  node_at (layers (trainingStep demo_inputs demo_expected demo).1) 1 0
  = Some {| weights := [Num (-0.0859375); Num (-0.921875)];
            bias := Num 0.5;
            cached := {| input := Num 1.5;
                         output := Num 1.5;
                         weightUpdates := [Num (-0.5859375); Num (-1.171875)];
                         biasUpdate := Num 0.5859375;
                         errorWrtIn := Num 1.171875 |} |}%float.
Proof. vm_compute. reflexivity. Qed.

(** After the step, [outputs()] still gives the outputs of the weights
    before the step; feeding the same inputs again gives others. *)
Example demo_outputs_after_step :
  let after := (trainingStep demo_inputs demo_expected demo).1 in
  (outputs after).2 = Normal [Num 1.875; Num 1.9375]%float
  ∧ (outputs (feedInputs demo_inputs demo).1).2
    = Normal [Num 1.875; Num 1.9375]%float
  ∧ (outputs (feedInputs demo_inputs after).1).2
    = Normal [Num 4.2279052734375; Num 1.06317138671875]%float.
Proof. by vm_compute. Qed.

(** One step on [Js.demo4], which has two hidden layers, with the same
    vectors: the errors with respect to the input, layer by layer.  The
    forward pass gives the outputs [1.5, 1.75], then [1.875, 1.9375],
    then [2.84375, 3.125].  The errors of the second hidden layer come
    from those of the output layer, [2.84375 * 1 + 2.125 * 0.5] and
    [2.84375 * 0.5 + 2.125 * 1], and those of the first hidden layer from
    those of the second, [3.90625 * 0.5 + 3.546875 * 0.25] and
    [3.90625 * 0.5 + 3.546875 * 0.75]: the second hidden layer is
    processed before the first. *)
Example demo4_hidden_errors :
  fmap (M:=list) (λ node, errorWrtIn (cached node))
    <$> layers (trainingStep demo_inputs demo_expected demo4).1
  = [ [Num 0; Num 0];
      [Num 2.83984375; Num 4.61328125];
      [Num 3.90625; Num 3.546875];
      [Num 2.84375; Num 2.125] ]%float.
Proof. by vm_compute. Qed.

(** ** The theorems at the linear network

    Each theorem above that has a hypothesis, applied to [Js.demo], or
    to [Js.demo4] for the hidden layers, with the inputs [1, 2] and the
    expected outputs [0, 1]. *)

Ltac demo_hyp :=
  solve [ reflexivity | simpl; repeat constructor | simpl; lia ].

Lemma trainingStep_hidden_layers_witness :
  wired (layers demo4)
  ∧ 2 ≤ length (layers demo4)
  ∧ (∃ fed this',
      feedInputs demo_inputs demo4 = (fed, Normal tt)
      ∧ trainingStep demo_inputs demo_expected demo4 = (this', Normal tt)
      ∧ shape (layers this') = shape (layers demo4)
      ∧ fmap (M:=list) (λ node, (input (cached node), output (cached node)))
          <$> layers this'
        = fmap (λ node, (input (cached node), output (cached node)))
          <$> layers fed
      ∧ (∀ l i node next' next0,
           1 ≤ l →
           node_at (layers this') l i = Some node →
           layers this' !! S l = Some next' →
           layers demo4 !! S l = Some next0 →
           ∃ nextLayer,
             (λ k, errorWrtIn (cached k)) <$> nextLayer
               = (λ k, errorWrtIn (cached k)) <$> next'
             ∧ weights <$> nextLayer = weights <$> next0
             ∧ errorWrtIn (cached node)
               = mul (fanIn nextLayer i)
                     (activationFunctionDerivative (definition demo4)
                        (input (cached node))))
      ∧ (∀ i node,
           node_at (layers this') 0 i = Some node →
           ∃ node0,
             node_at (layers demo4) 0 i = Some node0
             ∧ errorWrtIn (cached node) = errorWrtIn (cached node0)
             ∧ weightUpdates (cached node) = weightUpdates (cached node0)
             ∧ biasUpdate (cached node) = biasUpdate (cached node0))
      ∧ proposeHiddenLayers demo4
        = foldr (λ l k, proposeHiddenLayer l;; k) (mret tt)
                (reverse (seq 1 (length (layers demo4) - 2))) demo4
      ∧ trainingStep demo_inputs demo_expected demo4
        = (proposeOutputLayer demo_inputs demo_expected;;
           foldr (λ l k, proposeHiddenLayer l;; k) (mret tt)
                 (reverse (seq 1 (length (layers demo4) - 2)));;
           applyUpdates) demo4).
Proof.
  split; [demo_hyp|]. split; [demo_hyp|].
  apply (trainingStep_hidden_layers demo_inputs demo_expected demo4); demo_hyp.
Defined.

Lemma trainingStep_two_phase_witness :
  wired (layers demo)
  ∧ 2 ≤ length (layers demo)
  ∧ (∃ mid this',
      (proposeOutputLayer demo_inputs demo_expected;; proposeHiddenLayers) demo
        = (mid, Normal tt)
      ∧ applyUpdates mid = (this', Normal tt)
      ∧ trainingStep demo_inputs demo_expected demo = (this', Normal tt)
      ∧ params (layers mid) = params (layers demo)
      ∧ (∀ l i node nextLayer,
           1 ≤ l →
           node_at (layers mid) l i = Some node →
           layers mid !! S l = Some nextLayer →
           errorWrtIn (cached node)
           = mul (fanIn nextLayer i)
                 (activationFunctionDerivative (definition demo)
                    (input (cached node))))
      ∧ (∀ l i node,
           node_at (layers mid) l i = Some node →
           ∃ node',
             node_at (layers this') l i = Some node'
             ∧ cached node' = cached node
             ∧ bias node' = bias node
             ∧ length (weights node') = length (weights node)
             ∧ ∀ j w,
                 weights node !! j = Some w →
                 weights node' !! j
                 = Some (add w (nth j (weightUpdates (cached node)) undefined)))).
Proof.
  split; [demo_hyp|]. split; [demo_hyp|]. 
  apply (trainingStep_two_phase demo_inputs demo_expected demo); demo_hyp.
Defined.

Lemma feedInputs_forward_pass_witness :
  wired (layers demo)
  ∧ (∃ this',
      feedInputs demo_inputs demo = (this', Normal tt)
      ∧ params (layers this') = params (layers demo)
      ∧ (∀ i node,
           node_at (layers this') 0 i = Some node →
           output (cached node) = nth i demo_inputs undefined)
      ∧ (∀ l i node prev,
           node_at (layers this') (S l) i = Some node →
           layers this' !! l = Some prev →
           input (cached node)
             = add (weightedSum prev (weights node) zero) (bias node)
           ∧ output (cached node)
             = activationFunction (definition demo) (input (cached node)))
      ∧ (∀ that,
           params (layers that) = params (layers demo) →
           activationFunction (definition that)
             = activationFunction (definition demo) →
           ∃ that',
             feedInputs demo_inputs that = (that', Normal tt)
             ∧ activations (layers that') = activations (layers this')
             ∧ netInputs (layers that') = netInputs (layers this'))).
Proof.
  split; [demo_hyp|]. 
  apply (feedInputs_forward_pass demo_inputs demo); demo_hyp.
Defined.

Lemma totalError_sum_witness :
  last (layers demo) = Some demo_output
  ∧   length demo_expected = length demo_output
  ∧ (totalError demo_expected demo
    = (demo,
       Normal (fold_left add
                 (zip_with (λ node e,
                              errorFunction (definition demo)
                                (output (cached node)) e) demo_output demo_expected)
                 zero))).
Proof.
  split; [demo_hyp|]. split; [demo_hyp|]. 
  apply (totalError_sum demo_expected demo demo_output); demo_hyp.
Defined.

Lemma trainingStep_keeps_forward_values_witness :
  wired (layers demo)
  ∧ 2 ≤ length (layers demo)
  ∧ (∃ fed this' os,
      feedInputs demo_inputs demo = (fed, Normal tt)
      ∧ trainingStep demo_inputs demo_expected demo = (this', Normal tt)
      ∧ params (layers fed) = params (layers demo)
      ∧ fmap (M:=list) (λ node, (input (cached node), output (cached node)))
          <$> layers this'
        = fmap (λ node, (input (cached node), output (cached node)))
          <$> layers fed
      ∧ outputs fed = (fed, Normal os)
      ∧ outputs this' = (this', Normal os)
      ∧ ∀ e, ∃ err,
          totalError e fed = (fed, Normal err)
          ∧ totalError e this' = (this', Normal err)).
Proof.
  split; [demo_hyp|]. split; [demo_hyp|]. 
  apply (trainingStep_keeps_forward_values demo_inputs demo_expected demo); demo_hyp.
Defined.

Lemma shape_mismatch_tolerated_witness :
  wired (layers demo)
  ∧ 2 ≤ length (layers demo)
  ∧ ((∃ this',
       feedInputs demo_inputs demo = (this', Normal tt)
       ∧ ∀ i node,
           node_at (layers this') 0 i = Some node →
           output (cached node) = nth i demo_inputs undefined)
    ∧ (∃ this', trainingStep demo_inputs demo_expected demo = (this', Normal tt))
    ∧ (∀ k,
         feedInputs (demo_inputs ++ replicate k undefined) demo
           = feedInputs demo_inputs demo
         ∧ trainingStep demo_inputs (demo_expected ++ replicate k undefined) demo
           = trainingStep demo_inputs demo_expected demo)
    ∧ (∀ extra layer0,
         layers demo !! 0 = Some layer0 →
         length layer0 ≤ length demo_inputs →
         feedInputs (demo_inputs ++ extra) demo = feedInputs demo_inputs demo)
    ∧ (∀ extra demo_output,
         last (layers demo) = Some demo_output →
         length demo_output ≤ length demo_expected →
         trainingStep demo_inputs (demo_expected ++ extra) demo
         = trainingStep demo_inputs demo_expected demo)).
Proof.
  split; [demo_hyp|]. split; [demo_hyp|]. 
  apply (shape_mismatch_tolerated demo_inputs demo_expected demo); demo_hyp.
Defined.

Lemma trainingStep_bias_unchanged_witness :
  wired (layers demo)
  ∧ 2 ≤ length (layers demo)
  ∧ fmap (M:=list) bias
      <$> layers (trainingStep demo_inputs demo_expected demo).1
    = fmap bias <$> layers demo
  ∧ ∃ this',
      trainingStep demo_inputs demo_expected demo = (this', Normal tt)
      ∧ ∀ l i node,
          node_at (layers this') (S l) i = Some node →
          biasUpdate (cached node)
          = mul (mul (errorWrtIn (cached node)) one)
                (updateMultiplier (definition demo)).
Proof.
  split; [demo_hyp|]. split; [demo_hyp|].
  destruct (trainingStep_bias_unchanged demo_inputs demo_expected demo)
    as (Hbias & _ & Hstored).
  split; [exact Hbias|]. apply Hstored; demo_hyp.
Defined.

(** ** The further theorems at the linear network *)

Lemma throw_keeps_weights_witness :
  (trainingStep demo_inputs demo_expected miswired).2 = Throw TypeError
  ∧ params (layers (feedInputs demo_inputs miswired).1)
    = params (layers miswired)
  ∧ params (layers (trainingStep demo_inputs demo_expected miswired).1)
    = params (layers miswired).
Proof.
  destruct (throw_keeps_weights demo_inputs demo_expected miswired)
    as [Hfeed Hstep].
  split; [reflexivity|]. split; [exact Hfeed|].
  apply (Hstep TypeError). reflexivity.
Defined.

Lemma trainingStep_ignores_cache_witness :
  params (layers demo) = params (layers demo_fed)
  ∧ settings demo = settings demo_fed
  ∧ wired (layers demo)
  ∧ 2 ≤ length (layers demo)
  ∧ cached <$> layers demo !!! 2%nat ≠ cached <$> layers demo_fed !!! 2%nat
  ∧ ∃ this' that',
      trainingStep demo_inputs demo_expected demo = (this', Normal tt)
      ∧ trainingStep demo_inputs demo_expected demo_fed = (that', Normal tt)
      ∧ tail (layers this') = tail (layers that').
Proof.
  split; [demo_hyp|]. split; [demo_hyp|]. split; [demo_hyp|].
  split; [demo_hyp|]. split; [by vm_compute|].
  apply (trainingStep_ignores_cache demo_inputs demo_expected demo demo_fed);
    demo_hyp.
Defined.

Lemma one_update_per_weight_witness :
  wired (layers demo4)
  ∧ 2 ≤ length (layers demo4)
  ∧ (∀ layer0, layers demo4 !! 0 = Some layer0 → Forall consistent layer0)
  ∧ ∃ fed this',
      feedInputs demo_inputs demo4 = (fed, Normal tt)
      ∧ trainingStep demo_inputs demo_expected demo4 = (this', Normal tt)
      ∧ shape (layers this') = shape (layers demo4)
      ∧ fmap (M:=list) (λ node, (input (cached node), output (cached node)))
          <$> layers this'
        = fmap (λ node, (input (cached node), output (cached node)))
          <$> layers fed
      ∧ Forall (Forall consistent) (layers this').
Proof.
  assert (∀ layer0, layers demo4 !! 0 = Some layer0 → Forall consistent layer0)
    as H0 by (intros ? [= <-]; by repeat constructor).
  split; [demo_hyp|]. split; [demo_hyp|]. split; [exact H0|].
  destruct (one_update_per_weight demo_inputs demo_expected demo4) as [_ Hstep].
  apply Hstep; [demo_hyp|demo_hyp|exact H0].
Defined.

Lemma single_layer_gives_inputs_back_witness :
  layers single = one_layer
  ∧ length demo_inputs = length (one_layer !!! 0%nat)
  ∧ ((feedInputs demo_inputs;; outputs) single).2 = Normal demo_inputs.
Proof.
  split; [demo_hyp|]. split; [demo_hyp|].
  apply (single_layer_gives_inputs_back demo_inputs single
           (one_layer !!! 0%nat)); demo_hyp.
Defined.

Lemma script_completes_witness :
  wired (layers demo)
  ∧ 2 ≤ length (layers demo)
  ∧ ∃ w,
      script demo_inputs demo_expected example_steps {| net := demo; console := [] |}
        = (w, Normal tt)
      ∧ banners (console w)
        = 0 :: filter (λ i, i = 1 ∨ i mod 1000 = 0) (seq 1 example_steps)
      ∧ length (console w) = 3 * length (banners (console w))
      ∧ net w = Nat.iter example_steps
                  (λ this, (trainingStep demo_inputs demo_expected this).1)
                  (feedInputs demo_inputs demo).1
      ∧ shape (layers (net w)) = shape (layers demo).
Proof.
  split; [demo_hyp|]. split; [demo_hyp|].
  apply (script_completes demo_inputs demo_expected example_steps demo); demo_hyp.
Defined.

Lemma script_first_stats_repeat_witness :
  wired (layers demo)
  ∧ 2 ≤ length (layers demo)
  ∧ 1 ≤ example_steps
  ∧ ∃ w os err more,
      script demo_inputs demo_expected example_steps {| net := demo; console := [] |}
        = (w, Normal tt)
      ∧ console w
        = Banner 0 :: Output os :: Error err
          :: Banner 1 :: Output os :: Error err :: more.
Proof.
  split; [demo_hyp|]. split; [demo_hyp|]. split; [unfold example_steps; lia|].
  apply (script_first_stats_repeat demo_inputs demo_expected example_steps demo);
    [demo_hyp|demo_hyp|unfold example_steps; lia].
Defined.

(** The steps for which example.js prints, for its [10000] steps. *)
Example script_banners :
  0 :: filter (λ i, i = 1 ∨ i mod 1000 = 0) (seq 1 example_steps)
  = 0 :: 1 :: ((λ k, k * 1000) <$> seq 1 10).
Proof. vm_compute. reflexivity. Qed.

Lemma trainingStep_hidden_updates_witness :
  wired (layers demo4)
  ∧ 2 ≤ length (layers demo4)
  ∧ ∃ fed this',
      feedInputs demo_inputs demo4 = (fed, Normal tt)
      ∧ trainingStep demo_inputs demo_expected demo4 = (this', Normal tt)
      ∧ shape (layers this') = shape (layers demo4)
      ∧ fmap (M:=list) (λ node, (input (cached node), output (cached node)))
          <$> layers this'
        = fmap (λ node, (input (cached node), output (cached node)))
          <$> layers fed
      ∧ ∀ l i node,
          S (S l) < length (layers this') →
          node_at (layers this') (S l) i = Some node →
          length (weightUpdates (cached node)) = length (weights node)
          ∧ ∀ j, j < length (weights node) →
              ∃ p,
                node_at (layers this') l j = Some p
                ∧ weightUpdates (cached node) !! j
                  = Some (mul (mul (mul (neg one) (errorWrtIn (cached node)))
                                   (output (cached p)))
                              (updateMultiplier (definition demo4))).
Proof.
  split; [demo_hyp|]. split; [demo_hyp|].
  apply (trainingStep_hidden_updates demo_inputs demo_expected demo4); demo_hyp.
Defined.

(** ** Weights that are not numbers *)

Lemma nan_add x : (nan + x)%float = nan.
Proof. apply Prim2SF_inj. rewrite add_spec. reflexivity. Qed.

Lemma applyPure_nan (node : node_t jsval) j w :
  weights node !! j = Some w →
  toNumber w = nan →
  weights (applyPure node) !! j = Some (Num nan).
Proof.
  intros Hw Hnan. simpl. rewrite list_lookup_imap, Hw. simpl.
  by rewrite Hnan, nan_add.
Qed.

(** X19.  On binary64 numbers, a weight that is [NaN] (or [undefined])
    is [NaN] after [trainingStep(inputs, expected)], whatever the network,
    the vectors and the outcome of the call: where the call returns, the
    weight has become [weight + cached.weightUpdates[j]], which is [NaN];
    where it throws, no weight has changed. *)
Theorem nan_weight_stays inputs expected (this : network_t jsval)
    l i j node w :
  node_at (layers this) l i = Some node →
  weights node !! j = Some w →
  toNumber w = nan →
  ∃ node' w',
    node_at (layers (trainingStep inputs expected this).1) l i = Some node'
    ∧ weights node' !! j = Some w'
    ∧ toNumber w' = nan.
Proof.
  intros Hn Hw Hnan.
  destruct (trainingStep inputs expected this) as [this' [[]|e]] eqn:Hrun.
  - assert (wired (layers this) ∧ 2 ≤ length (layers this)) as [Hwired Hlen].
    { destruct (decide (wired (layers this))) as [Hwired|Hnot]; last first.
      { pose proof (trainingStep_unwired inputs expected this Hnot) as Ht.
        by rewrite Hrun in Ht. }
      split; [done|].
      destruct (layers this) as [|layer0 [|layer1 rest]] eqn:Hnet;
        [done| |simpl; lia].
      exfalso.
      pose proof (proj1 (trainingStep_single_layer inputs expected this
                           layer0 Hnet)) as Hone.
      rewrite Hrun in Hone. specialize (Hone eq_refl).
      unfold node_at in Hn.
      destruct l as [|l]; [|done]. simpl in Hn.
      pose proof (Forall_lookup_1 _ _ _ _ Hone Hn) as Hnil.
      simpl in Hnil. by rewrite Hnil in Hw. }
    rewrite trainingStep_pure in Hrun by done. injection Hrun as <-.
    cbn [fst]. rewrite layers_with_layers, trained_node_at.
    set (d := definition this).
    assert (fmap (M:=list) weights <$> proposed d inputs expected
            = fmap weights <$> layers this) as Hframe.
    { rewrite (proposed_frame weights) by done.
      by apply (forward_frame weights). }
    destruct (node_at_fmap weights (layers this) (proposed d inputs expected)
                l i node) as (nodeP & HP & Hweights); [done|done|].
    rewrite HP. exists (applyPure nodeP), (Num nan).
    split; [done|]. split; [|done].
    apply (applyPure_nan nodeP j w); [|done]. by rewrite <- Hweights.
  - cbn [fst].
    pose proof (trainingStep_throw_params inputs expected this e) as Hkeep.
    rewrite Hrun in Hkeep. specialize (Hkeep eq_refl).
    cbn [fst] in Hkeep.
    destruct (node_at_fmap (λ node, (weights node, bias node))
                (layers this) (layers this') l i node)
      as (node' & Hn' & Hweights); [done|done|].
    exists node', w. split; [done|]. split; [|done].
    injection Hweights as Hweights _. by rewrite <- Hweights.
Qed.

Lemma nan_weight_stays_witness :
  (∃ node,
     node_at (layers demo_poisoned) 1 0 = Some node
     ∧ weights node !! 0 = Some (Num nan)
     ∧ toNumber (Num nan) = nan)
  ∧ ∃ node' w',
      node_at (layers (trainingStep demo_inputs demo_expected demo_poisoned).1)
        1 0 = Some node'
      ∧ weights node' !! 0 = Some w'
      ∧ toNumber w' = nan.
Proof.
  split.
  - eexists. split; [by vm_compute|]. split; reflexivity.
  - eapply (nan_weight_stays demo_inputs demo_expected demo_poisoned 1 0 0);
      [by vm_compute|reflexivity|reflexivity].
Defined.
